(** * WSN simulator: topology construction, shortest-path routing and
      per-hop energy depletion (streamlit_app.py).

    The development follows the Python module top to bottom:
    - the constants MAX_ENERGY, TRANSMISSION_COST, RECEPTION_COST;
    - [euclidean_distance] and [connect_nodes] over an undirected graph kept,
      as networkx keeps it, as an adjacency dictionary;
    - the library call [nx.shortest_path], modelled as a breadth-first search
      that raises [NodeNotFound] or [NetworkXNoPath] the way networkx does;
    - [simulate_routing], a stateful loop over the hops of the path which
      mutates the energy dictionary in place. *)

From Stdlib Require Import ZArith Floats.
From stdpp Require Import gmap strings list fin_maps fin_sets pretty.

#[local] Open Scope Z_scope.

(** ** Constants (lines 8-10) *)

Definition MAX_ENERGY : Z := 100.
Definition TRANSMISSION_COST : Z := 2.
Definition RECEPTION_COST : Z := 1.

(** ** The graph object

    Node identities are Python integers.  An [nx.Graph] stores a dictionary
    from every node to the collection of its neighbours; an undirected edge
    u-v is recorded twice, under u and under v. *)

Abbreviation node := Z.
Abbreviation Graph := (gmap Z (gset Z)).

Module Nx.

Definition nodes (G : Graph) : gset node := dom G.

Definition neighbors (G : Graph) (u : node) : gset node :=
  default ∅ (G !! u).

Definition has_edge (G : Graph) (u v : node) : Prop := v ∈ neighbors G u.

(** [G.add_node(n)]: a node already present keeps its adjacency. *)
Definition add_node (G : Graph) (n : node) : Graph :=
  match G !! n with
  | Some _ => G
  | None => <[n := ∅]> G
  end.

(** [G.add_nodes_from(ns)] *)
Definition add_nodes_from (G : Graph) (ns : list node) : Graph :=
  foldl add_node G ns.

(** [G.add_edge(u, v)]: both endpoints are created when missing, then
    v is entered under u and u under v. *)
Definition add_edge (G : Graph) (u v : node) : Graph :=
  let G1 := add_node (add_node G u) v in
  let G2 := <[u := neighbors G1 u ∪ {[v]}]> G1 in
  <[v := neighbors G2 v ∪ {[u]}]> G2.

(** The invariant every [nx.Graph] satisfies: neighbours are nodes and
    adjacency is symmetric. *)
Definition wf_graph (G : Graph) : Prop :=
  ∀ u v, has_edge G u v → v ∈ nodes G ∧ has_edge G v u.

End Nx.

(** ** Numbers

    Coordinates and the transmission range are Python numbers.  The code
    uses subtraction, [** 2], addition, [math.sqrt] and [<=] on them.  The
    arithmetic can raise: [** 2] on a float raises OverflowError when the
    result is out of range, [math.sqrt] raises OverflowError on an integer
    too large for a float and ValueError on a negative number.  The class
    below is that interface; [math.sqrt] yields a float whatever it is
    given, so the distance has a type of its own. *)

Inductive arith_error : Type :=
  | OverflowError
  | ValueError.

Class Numeric (coord dist range : Type) := {
  nsub : coord → coord → arith_error + coord;
  nsqr : coord → arith_error + coord;
  nadd : coord → coord → arith_error + coord;
  nsqrt : coord → arith_error + dist;
  nleb : dist → range → bool
}.

Definition and_then {A B : Type} (x : arith_error + A)
    (f : A → arith_error + B) : arith_error + B :=
  match x with
  | inl e => inl e
  | inr a => f a
  end.

Notation "'calc' x ':=' m 'in' k" := (and_then m (λ x, k))
  (at level 10, x name, m at level 100, k at level 200).

(** [math.sqrt] on a float: the C square root, a NaN result for an
    argument that is not one being reported as ValueError. *)
Definition math_sqrt (x : float) : arith_error + float :=
  let r := PrimFloat.sqrt x in
  if PrimFloat.is_nan r && negb (PrimFloat.is_nan x) then inl ValueError
  else inr r.

(** The conversion of a Python integer to a float: rounding to nearest,
    ties to even; OverflowError when the result is out of range. *)
Definition int_to_float (z : Z) : arith_error + float :=
  match binary_normalize FloatOps.prec FloatOps.emax z 0 false with
  | S754_infinity _ => inl OverflowError
  | sf => inr (SF2Prim sf)
  end.

(** Integer coordinates with a float range: integer arithmetic is exact
    and never raises; [math.sqrt] converts its argument to a float. *)
#[export] Instance int_numeric : Numeric Z float float := {|
  nsub := λ a b, inr (a - b);
  nsqr := λ a, inr (a * a);
  nadd := λ a b, inr (a + b);
  nsqrt := λ a, calc x := int_to_float a in math_sqrt x;
  nleb := PrimFloat.leb
|}.

(** [x ** 2] on a float, as the interpreter computes it: NaN, the
    infinities, zero and one are answered at once; otherwise the sign is
    dropped and the C library's [pow] is called on the absolute value.
    What [pow] returns, and whether the interpreter turns its result into
    OverflowError, depends on the platform's library: [pow_2] stands for
    that call and its check. *)
Definition float_pow2 (pow_2 : float → arith_error + float) (x : float)
    : arith_error + float :=
  let ax := PrimFloat.abs x in
  if PrimFloat.is_nan ax then inr ax
  else if PrimFloat.eqb ax PrimFloat.infinity then inr ax
  else if PrimFloat.eqb ax 0%float then inr 0%float
  else if PrimFloat.eqb ax 1%float then inr 1%float
  else pow_2 ax.

(** Float coordinates and range: IEEE 754 binary64 throughout. *)
Definition float_numeric (pow_2 : float → arith_error + float)
    : Numeric float float float := {|
  nsub := λ a b, inr (PrimFloat.sub a b);
  nsqr := float_pow2 pow_2;
  nadd := λ a b, inr (PrimFloat.add a b);
  nsqrt := math_sqrt;
  nleb := PrimFloat.leb
|}.

Section Topology.

Context {coord dist range : Type} {num : Numeric coord dist range}.

(** Lines 13-14, in the order Python evaluates the expression. *)
Definition euclidean_distance (a b : coord * coord) : arith_error + dist :=
  calc dx := nsub a.1 b.1 in
  calc sx := nsqr dx in
  calc dy := nsub a.2 b.2 in
  calc sy := nsqr dy in
  calc s := nadd sx sy in
  nsqrt s.

(** The test of line 24 for one ordered pair of dictionary items; [and]
    does not evaluate the distance when the two keys are equal. *)
Definition in_range (tx_range : range) (i : node) (pi : coord * coord)
    (j : node) (pj : coord * coord) : arith_error + bool :=
  if bool_decide (i ≠ j)
  then calc d := euclidean_distance pi pj in inr (nleb d tx_range)
  else inr false.

(** The inner loop of [connect_nodes] (lines 23-25) for a fixed i.  The
    graph is mutated in place: an exception leaves the edges added so
    far. *)
Fixpoint connect_from (tx_range : range) (it : node * (coord * coord))
    (items : list (node * (coord * coord))) (G : Graph)
    : (arith_error + unit) * Graph :=
  match items with
  | [] => (inr tt, G)
  | jt :: rest =>
      match in_range tx_range it.1 it.2 jt.1 jt.2 with
      | inl e => (inl e, G)
      | inr true => connect_from tx_range it rest (Nx.add_edge G it.1 jt.1)
      | inr false => connect_from tx_range it rest G
      end
  end.

(** The outer loop. *)
Fixpoint connect_all (tx_range : range)
    (items its : list (node * (coord * coord))) (G : Graph)
    : (arith_error + unit) * Graph :=
  match its with
  | [] => (inr tt, G)
  | it :: rest =>
      match connect_from tx_range it items G with
      | (inr _, G') => connect_all tx_range items rest G'
      | (inl e, G') => (inl e, G')
      end
  end.

(** Lines 21-25.  Both loops run over the keys of [positions]; looking a
    key of the dictionary up again cannot fail, so the loops are written
    over its items.  The items are taken in the order the finite map
    lists them, which need not be the order of insertion; what is proved
    below does not depend on that order. *)
Definition connect_nodes (G : Graph) (positions : gmap node (coord * coord))
    (tx_range : range) : (arith_error + unit) * Graph :=
  connect_all tx_range (map_to_list positions) (map_to_list positions) G.

(** Lines 70-72: a fresh graph, the nodes, then the edges. *)
Definition build_topology (positions : gmap node (coord * coord))
    (tx_range : range) : (arith_error + unit) * Graph :=
  connect_nodes (Nx.add_nodes_from ∅ (map_to_list positions).*1)
                positions tx_range.

(** What line 24 finds true for the ordered pair (i, j). *)
Definition linked (positions : gmap node (coord * coord)) (tx_range : range)
    (i j : node) : Prop :=
  i ≠ j ∧ ∃ pi pj d, positions !! i = Some pi ∧ positions !! j = Some pj ∧
                     euclidean_distance pi pj = inr d ∧
                     nleb d tx_range = true.

(** The Euclidean distance in the words of the specification: [d] is the
    square root of the sum of the squares of the two coordinate
    differences. *)
Definition euclidean_spec (a b : coord * coord) (d : dist) : Prop :=
  ∃ dx dy sx sy s,
    nsub a.1 b.1 = inr dx ∧ nsub a.2 b.2 = inr dy ∧
    nsqr dx = inr sx ∧ nsqr dy = inr sy ∧
    nadd sx sy = inr s ∧ nsqrt s = inr d.

(** The edges the two loops add, in order, and how the loops end; this
    does not depend on the graph they are added to. *)
Fixpoint plan_from (tx_range : range) (it : node * (coord * coord))
    (items : list (node * (coord * coord)))
    : (arith_error + unit) * list (node * node) :=
  match items with
  | [] => (inr tt, [])
  | jt :: rest =>
      match in_range tx_range it.1 it.2 jt.1 jt.2 with
      | inl e => (inl e, [])
      | inr b =>
          let '(o, es) := plan_from tx_range it rest in
          (o, if b then (it.1, jt.1) :: es else es)
      end
  end.

Fixpoint plan_all (tx_range : range)
    (items its : list (node * (coord * coord)))
    : (arith_error + unit) * list (node * node) :=
  match its with
  | [] => (inr tt, [])
  | it :: rest =>
      match plan_from tx_range it items with
      | (inr _, es) =>
          let '(o, es') := plan_all tx_range items rest in (o, es ++ es')
      | (inl e, es) => (inl e, es)
      end
  end.

Definition add_edges (G : Graph) (es : list (node * node)) : Graph :=
  foldl (λ G' e, Nx.add_edge G' e.1 e.2) G es.

End Topology.

(** Line 18: every node starts with the maximum energy. *)
Definition initial_energy (num_nodes : nat) : gmap node Z :=
  list_to_map ((λ i : nat, (Z.of_nat i, MAX_ENERGY)) <$> seq 0 num_nodes).

(** ** Exceptions

    The three exceptions the routing code can meet: two raised by networkx,
    one raised by a dictionary subscript. *)

Inductive exn : Type :=
  | NodeNotFound
  | NetworkXNoPath
  | KeyError (k : node).

(** ** [nx.shortest_path] (line 29)

    The call is to the networkx library, with no weight and no method: an
    unweighted search by breadth.  It is modelled here level by level.
    [reached G source k] is the set of nodes at most k hops away from
    [source]; a node of level k+1 takes as predecessor a node of level k
    that has it as a neighbour.  networkx raises [NodeNotFound] when an
    endpoint is not a node of the graph, [NetworkXNoPath] when the search
    ends without meeting the target, and returns [[source]] when source and
    target coincide.  Which of several shortest paths is returned is left
    open by networkx; this model takes the first predecessor in the order
    of [elements]. *)

Module Search.
Import Nx.

Definition expand (G : Graph) (seen : gset node) : gset node :=
  seen ∪ ⋃ (neighbors G <$> elements seen).

Fixpoint reached (G : Graph) (source : node) (k : nat) : gset node :=
  match k with
  | O => {[source]}
  | S k' => expand G (reached G source k')
  end.

Definition pred_of (G : Graph) (level : gset node) (t : node) : option node :=
  List.find (λ u, bool_decide (t ∈ neighbors G u)) (elements level).

Fixpoint path_to (G : Graph) (source : node) (k : nat) (t : node)
    : list node :=
  match k with
  | O => [source]
  | S k' =>
      if decide (t ∈ reached G source k') then path_to G source k' t
      else match pred_of G (reached G source k') t with
           | Some u => path_to G source k' u ++ [t]
           | None => [source]
           end
  end.

Definition shortest_path (G : Graph) (source target : node)
    : exn + list node :=
  if decide (source ∈ nodes G ∧ target ∈ nodes G) then
    let fuel := size (nodes G) in
    if decide (target ∈ reached G source fuel)
    then inr (path_to G source fuel target)
    else inl NetworkXNoPath
  else inl NodeNotFound.

(** A route: from [s] to [t], every consecutive pair an edge. *)
Definition is_path (G : Graph) (s t : node) (p : list node) : Prop :=
  head p = Some s ∧ last p = Some t ∧
  ∀ (i : nat) (u v : node),
    p !! i = Some u → p !! S i = Some v → has_edge G u v.

Definition hops (p : list node) : nat := pred (length p).

End Search.

(** ** The objects [simulate_routing] works on

    The function receives references to the graph and to the energy
    dictionary and mutates the latter in place; an exception leaves in the
    dictionary whatever had been written before it was raised.  A
    computation therefore maps a world to an outcome and a world. *)

Record World : Type := {
  w_graph : Graph;
  w_energy : gmap node Z
}.

Definition M (A : Type) : Type := World → (exn + A) * World.

Definition ret {A : Type} (a : A) : M A := λ w, (inr a, w).

Definition bind {A B : Type} (m : M A) (f : A → M B) : M B :=
  λ w, match m w with
       | (inr a, w') => f a w'
       | (inl e, w') => (inl e, w')
       end.

Notation "'call' x ':=' m 'in' k" := (bind m (λ x, k))
  (at level 10, x name, m at level 100, k at level 200).
Notation "'run' m 'in' k" := (bind m (λ _, k))
  (at level 10, m at level 100, k at level 200).

(** [try: body except nx.NetworkXNoPath: handler] *)
Definition except_no_path {A : Type} (body handler : M A) : M A :=
  λ w, match body w with
       | (inl NetworkXNoPath, w') => handler w'
       | r => r
       end.

(** [nx.shortest_path(G, source=source, target=sink)] *)
Definition nx_shortest_path (source sink : node) : M (list node) :=
  λ w, match Search.shortest_path (w_graph w) source sink with
       | inr p => (inr p, w)
       | inl e => (inl e, w)
       end.

(** [energy[n] -= c]: the subscript raises [KeyError] on a missing key. *)
Definition energy_sub (n : node) (c : Z) : M unit :=
  λ w, match w_energy w !! n with
       | Some v => (inr tt, {| w_graph := w_graph w;
                               w_energy := <[n := v - c]> (w_energy w) |})
       | None => (inl (KeyError n), w)
       end.

(** Lines 35-40: the branch on the MAC protocol. *)
Definition charge_hop (mac_protocol : string) (sender receiver : node)
    : M unit :=
  if String.eqb mac_protocol "CSMA" then
    run energy_sub sender TRANSMISSION_COST in
    energy_sub receiver RECEPTION_COST
  else if String.eqb mac_protocol "TDMA" then
    run energy_sub sender (TRANSMISSION_COST / 2) in
    energy_sub receiver (RECEPTION_COST / 2)
  else ret tt.

(** Line 41: the f-string of one hop. *)
Definition hop_log (sender receiver : node) : string :=
  pretty sender +:+ " → " +:+ pretty receiver.

(** Lines 31-41: the loop over [range(len(path)-1)], reading [path[i]] and
    [path[i+1]]. *)
Fixpoint route_hops (mac_protocol : string) (path : list node)
    (logs : list string) : M (list string) :=
  match path with
  | [] => ret logs
  | sender :: rest =>
      match rest with
      | [] => ret logs
      | receiver :: _ =>
          run charge_hop mac_protocol sender receiver in
          route_hops mac_protocol rest (logs ++ [hop_log sender receiver])
      end
  end.

(** Lines 27-44. *)
Definition simulate_routing (G : Graph) (source sink : node)
    (energy : gmap node Z) (mac_protocol : string)
    : (exn + (option (list node) * list string)) * World :=
  except_no_path
    (call path := nx_shortest_path source sink in
     call logs := route_hops mac_protocol path [] in
     ret (Some path, logs))
    (ret (None, ["No path found!"]))
    {| w_graph := G; w_energy := energy |}.

(** ** Quantities the properties are stated with *)

(** The cost pair of a recognised MAC protocol. *)
Definition mac_costs (mac_protocol : string) : option (Z * Z) :=
  if String.eqb mac_protocol "CSMA"
  then Some (TRANSMISSION_COST, RECEPTION_COST)
  else if String.eqb mac_protocol "TDMA"
  then Some (TRANSMISSION_COST / 2, RECEPTION_COST / 2)
  else None.

(** The hops of a path, as (sender, receiver) pairs. *)
Fixpoint hops_of (path : list node) : list (node * node) :=
  match path with
  | [] => []
  | sender :: rest =>
      match rest with
      | [] => []
      | receiver :: _ => (sender, receiver) :: hops_of rest
      end
  end.

(** The transcript of a path: one entry per hop, in hop order, each the
    decimal numerals of the sender and of the receiver about an arrow. *)
Definition transcript (path : list node) : list string :=
  (λ h, pretty h.1 +:+ " → " +:+ pretty h.2) <$> hops_of path.

(** How many of the hops a node sends, and how many it receives. *)
Definition sends (n : node) (hs : list (node * node)) : Z :=
  Z.of_nat (length (filter (λ h, h.1 = n) hs)).

Definition receives (n : node) (hs : list (node * node)) : Z :=
  Z.of_nat (length (filter (λ h, h.2 = n) hs)).

(** The sum of all energy levels. *)
Definition total_energy (energy : gmap node Z) : Z :=
  map_fold (λ _ v acc, v + acc) 0 energy.

(** The energy dictionary after [c] has been taken from node [n]. *)
Definition debit (energy : gmap node Z) (n : node) (c : Z) : gmap node Z :=
  alter (λ v, v - c) n energy.

(** ... and after every hop of a list has been charged, sender first. *)
Definition charge_hops (tx_cost rx_cost : Z) (hs : list (node * node))
    (energy : gmap node Z) : gmap node Z :=
  foldl (λ e h, debit (debit e h.1 tx_cost) h.2 rx_cost) energy hs.

(** The cost table of the two MAC policies. *)
Definition policy_costs (mac_protocol : string) (tx_cost rx_cost : Z)
    : Prop :=
  (mac_protocol = "CSMA" ∧ tx_cost = 2 ∧ rx_cost = 1) ∨
  (mac_protocol = "TDMA" ∧ tx_cost = 1 ∧ rx_cost = 0).

(** Energy only goes down, and only at the nodes of [on]. *)
Definition depletes (on : list node) (energy energy' : gmap node Z)
    : Prop :=
  ∀ n, (n ∉ on → energy' !! n = energy !! n) ∧
       (∀ v, energy !! n = Some v → ∃ v', energy' !! n = Some v' ∧ v' ≤ v) ∧
       (energy !! n = None → energy' !! n = None).

(** ** The scenario of three nodes on a line *)

Definition line_positions : gmap node (Z * Z) :=
  <[0 := (0, 0)]> (<[1 := (1, 0)]> (<[2 := (2, 0)]> ∅)).

Definition line_graph : Graph :=
  (build_topology line_positions 1.5%float).2.

(** The same three nodes with a transmission range of zero. *)
Definition isolated_graph : Graph :=
  (build_topology line_positions 0%float).2.

(** The three nodes with float coordinates. *)
Definition line_positions_float : gmap node (float * float) :=
  <[0 := (0, 0)%float]> (<[1 := (1, 0)%float]> (<[2 := (2, 0)%float]> ∅)).

(** Two nodes, the second one very far away. *)
Definition far_positions : gmap node (Z * Z) :=
  <[0 := (0, 0)]> (<[1 := (10 ^ 200, 0)]> ∅).

(** ** [generate_nodes] (lines 16-19)

    [random.uniform] belongs to the Python library; it is a parameter here,
    together with the state of the generator it advances, and so is the
    number written [0] in the call. *)

Section Generation.
Context {num rng : Type}.
Variable uniform : num → num → rng → num * rng.
Variable zero : num.

(** The dictionary comprehension of line 17: for every identity in turn, two
    draws from [uniform(0, area_size)]. *)
Fixpoint draw_positions (ids : list node) (area_size : num) (g : rng)
    : gmap node (num * num) * rng :=
  match ids with
  | [] => (∅, g)
  | i :: ids' =>
      let '(x, g1) := uniform zero area_size g in
      let '(y, g2) := uniform zero area_size g1 in
      let '(positions, g3) := draw_positions ids' area_size g2 in
      (<[i := (x, y)]> positions, g3)
  end.

(** [range(num_nodes)]; empty when [num_nodes] is not positive. *)
Definition range (n : Z) : list node := Z.of_nat <$> seq 0 (Z.to_nat n).

Definition generate_nodes (num_nodes : Z) (area_size : num) (g : rng)
    : gmap node (num * num) * gmap node Z * rng :=
  let '(positions, g') := draw_positions (range num_nodes) area_size g in
  (positions, initial_energy (Z.to_nat num_nodes), g').

End Generation.

(** ** [draw_network]: the route it highlights (lines 50-52)

    [if path:] is false for [None] and for an empty list; otherwise the
    edges drawn in red are [zip(path, path[1:])]. *)

Definition path_edges (path : list node) : list (node * node) :=
  zip path (drop 1 path).

Definition highlighted_edges (path : option (list node))
    : option (list (node * node)) :=
  match path with
  | Some ((_ :: _) as p) => Some (path_edges p)
  | _ => None
  end.

(** ** The energy table shown at the end (line 91)

    [{f"Node {k}": f"{v:.1f}%" for k, v in energy.items()}].  The
    rendering of a number with one decimal is Python's own formatting and
    is a parameter here. *)

Definition display_key (k : node) : string := "Node " +:+ pretty k.

Definition energy_display (format_1f : Z → string) (energy : gmap node Z)
    : gmap string string :=
  list_to_map
    ((λ kv, (display_key kv.1, format_1f kv.2 +:+ "%"))
       <$> map_to_list energy).

(** ** Facts about the graph operations *)

Section GraphFacts.
Import Nx.

Lemma neighbors_add_node G n u : neighbors (add_node G n) u = neighbors G u.
Proof.
  unfold add_node, neighbors.
  destruct (G !! n) eqn:E; [done|].
  destruct (decide (n = u)) as [->|Hne].
  - by rewrite lookup_insert_eq, E.
  - by rewrite lookup_insert_ne.
Qed.

Lemma nodes_add_node G n : nodes (add_node G n) = nodes G ∪ {[n]}.
Proof.
  unfold add_node, nodes.
  destruct (G !! n) eqn:E.
  - assert (n ∈ dom G) by (apply elem_of_dom; eauto). set_solver.
  - rewrite dom_insert_L. set_solver.
Qed.

Lemma has_edge_add_node G n u v : has_edge (add_node G n) u v ↔ has_edge G u v.
Proof. unfold has_edge. by rewrite neighbors_add_node. Qed.

Lemma neighbors_insert G u s w :
  neighbors (<[u := s]> G) w = if decide (u = w) then s else neighbors G w.
Proof.
  unfold neighbors. rewrite lookup_insert. by destruct (decide (u = w)).
Qed.

Lemma has_edge_add_edge G u v a b :
  has_edge (add_edge G u v) a b ↔
  has_edge G a b ∨ (a = u ∧ b = v) ∨ (a = v ∧ b = u).
Proof.
  unfold add_edge, has_edge.
  rewrite !neighbors_insert, !neighbors_add_node.
  repeat case_decide; subst; set_solver.
Qed.

Lemma nodes_add_edge G u v : nodes (add_edge G u v) = nodes G ∪ {[u; v]}.
Proof.
  unfold add_edge, nodes. rewrite !dom_insert_L.
  fold (nodes (add_node (add_node G u) v)).
  rewrite !nodes_add_node. unfold nodes. set_solver.
Qed.

Lemma nodes_add_nodes_from ns G :
  nodes (add_nodes_from G ns) = nodes G ∪ list_to_set ns.
Proof.
  unfold add_nodes_from. revert G.
  induction ns as [|n ns IH]; intros G; simpl.
  - set_solver.
  - rewrite IH, nodes_add_node. set_solver.
Qed.

Lemma has_edge_add_nodes_from ns G u v :
  has_edge (add_nodes_from G ns) u v ↔ has_edge G u v.
Proof.
  unfold add_nodes_from. revert G.
  induction ns as [|n ns IH]; intros G; simpl; [done|].
  by rewrite IH, has_edge_add_node.
Qed.

Lemma has_edge_empty u v : ¬ has_edge ∅ u v.
Proof. unfold has_edge, neighbors. rewrite lookup_empty. set_solver. Qed.

Lemma has_edge_node G u v : has_edge G u v → u ∈ nodes G.
Proof.
  unfold has_edge, neighbors, nodes. intros Hv.
  apply elem_of_dom. destruct (G !! u); [eauto | set_solver].
Qed.

Lemma wf_graph_empty : wf_graph ∅.
Proof. intros u v Huv. by apply has_edge_empty in Huv. Qed.

Lemma wf_graph_add_node G n : wf_graph G → wf_graph (add_node G n).
Proof.
  intros Hwf u v. rewrite !has_edge_add_node, nodes_add_node.
  intros Huv. destruct (Hwf u v Huv). set_solver.
Qed.

Lemma wf_graph_add_nodes_from ns G :
  wf_graph G → wf_graph (add_nodes_from G ns).
Proof.
  unfold add_nodes_from. revert G.
  induction ns as [|n ns IH]; intros G HG; simpl; [done|].
  by apply IH, wf_graph_add_node.
Qed.

Lemma wf_graph_add_edge G u v : wf_graph G → wf_graph (add_edge G u v).
Proof.
  intros Hwf a b. rewrite !has_edge_add_edge, nodes_add_edge.
  intros [Hab|[[-> ->]|[-> ->]]].
  - destruct (Hwf a b Hab). set_solver.
  - set_solver.
  - set_solver.
Qed.

End GraphFacts.


(** ** Facts about the two number systems

    In both, squaring a difference gives the same outcome whichever way
    round the difference is taken.  For binary64 this goes through the
    specification of the operations: swapping the operands of a
    subtraction changes at most the sign of the result, and the squaring
    drops the sign before anything else. *)

Section NumberFacts.









Lemma int_sq_diff_sym (a b : Z) :
  and_then (nsub a b) nsqr = and_then (nsub b a) nsqr.
Proof. simpl. f_equal. ring. Qed.

End NumberFacts.

(** ** Facts about [connect_nodes] *)

Section TopologyFacts.
Import Nx.
Context {coord dist range : Type} `{Numeric coord dist range}.
Implicit Types (positions : gmap node (coord * coord)) (tx_range : range).
Implicit Types (items its : list (node * (coord * coord))).
Implicit Types (es : list (node * node)) (G : Graph).

Lemma and_then_assoc {A B C : Type} (x : arith_error + A)
    (f : A → arith_error + B) (g : B → arith_error + C) :
  and_then (and_then x f) g = and_then x (λ a, and_then (f a) g).
Proof. by destruct x. Qed.

Lemma and_then_inr {A B : Type} (x : arith_error + A)
    (f : A → arith_error + B) (b : B) :
  and_then x f = inr b ↔ ∃ a, x = inr a ∧ f a = inr b.
Proof.
  destruct x as [e|a]; simpl.
  - split; [done|]. by intros (a & ? & _).
  - split; [eauto|]. by intros (a' & [= <-] & ?).
Qed.

(** The function computes what the specification calls the Euclidean
    distance. *)
Lemma euclidean_distance_spec (a b : coord * coord) (d : dist) :
  euclidean_distance a b = inr d ↔ euclidean_spec a b d.
Proof.
  unfold euclidean_distance, euclidean_spec. split.
  - intros (dx & Hdx & (sx & Hsx & (dy & Hdy & (sy & Hsy & (s & Hs & Hd)
      %and_then_inr)%and_then_inr)%and_then_inr)%and_then_inr)%and_then_inr.
    by exists dx, dy, sx, sy, s.
  - intros (dx & dy & sx & sy & s & Hdx & Hdy & Hsx & Hsy & Hs & Hd).
    rewrite Hdx. simpl. rewrite Hsx. simpl. rewrite Hdy. simpl.
    rewrite Hsy. simpl. by rewrite Hs.
Qed.

(** Where squaring a difference has the same outcome in both orders, so
    has the distance. *)
Lemma euclidean_distance_sym (a b : coord * coord) :
  (∀ x y : coord, and_then (nsub x y) nsqr = and_then (nsub y x) nsqr) →
  euclidean_distance a b = euclidean_distance b a.
Proof.
  intros Hsq. unfold euclidean_distance.
  rewrite <- !(and_then_assoc (nsub _ _) nsqr).
  rewrite (Hsq a.1 b.1). destruct (and_then (nsub b.1 a.1) nsqr); [done|].
  simpl. rewrite <- !(and_then_assoc (nsub _ _) nsqr).
  by rewrite (Hsq a.2 b.2).
Qed.

Lemma has_edge_add_edges G es a b :
  has_edge (add_edges G es) a b ↔
  has_edge G a b ∨ (a, b) ∈ es ∨ (b, a) ∈ es.
Proof.
  unfold add_edges. revert G.
  induction es as [|[u v] es IH]; intros G; simpl.
  - split; [auto|]. intros [?|[?%elem_of_nil|?%elem_of_nil]]; done.
  - rewrite IH, has_edge_add_edge, !elem_of_cons. simpl. split.
    + intros [[?|[[-> ->]|[-> ->]]]|[?|?]]; auto.
    + intros [?|[[[= -> ->]|?]|[[= -> ->]|?]]]; auto.
Qed.

Lemma elem_of_nodes_add_edges G es n :
  n ∈ nodes (add_edges G es) ↔
  n ∈ nodes G ∨ ∃ e, e ∈ es ∧ (n = e.1 ∨ n = e.2).
Proof.
  unfold add_edges. revert G.
  induction es as [|[u v] es IH]; intros G; simpl.
  - split; [auto|]. intros [?|(e & ?%elem_of_nil & _)]; done.
  - rewrite IH, nodes_add_edge. split.
    + intros [Hn|(e & He & Hn)].
      * apply elem_of_union in Hn as [Hn|Hn]; [by left|].
        right. exists (u, v). split; [left|]. simpl. set_solver.
      * right. exists e. split; [by right|done].
    + intros [Hn|(e & He & Hn)]; [left; set_solver|].
      apply elem_of_cons in He as [->|He].
      * left. simpl in Hn. set_solver.
      * right. by exists e.
Qed.

Lemma wf_graph_add_edges G es : wf_graph G → wf_graph (add_edges G es).
Proof.
  unfold add_edges. revert G.
  induction es as [|e es IH]; intros G HG; simpl; [done|].
  by apply IH, wf_graph_add_edge.
Qed.

Lemma add_edges_app G es es' :
  add_edges G (es ++ es') = add_edges (add_edges G es) es'.
Proof. unfold add_edges. by rewrite foldl_app. Qed.

(** The loops add to the graph the edges of the plan and end as the
    plan ends. *)
Lemma connect_from_plan tx_range it items G :
  connect_from tx_range it items G
  = ((plan_from tx_range it items).1,
     add_edges G (plan_from tx_range it items).2).
Proof.
  induction items as [|jt items IH] in G |- *; simpl; [done|].
  destruct (in_range tx_range it.1 it.2 jt.1 jt.2) as [e|[|]]; [done|..].
  - rewrite IH. by destruct (plan_from tx_range it items).
  - rewrite IH. by destruct (plan_from tx_range it items).
Qed.

Lemma connect_all_plan tx_range items its G :
  connect_all tx_range items its G
  = ((plan_all tx_range items its).1,
     add_edges G (plan_all tx_range items its).2).
Proof.
  induction its as [|it its IH] in G |- *; simpl; [done|].
  rewrite connect_from_plan.
  destruct (plan_from tx_range it items) as [[e|[]] es]; simpl; [done|].
  rewrite IH. destruct (plan_all tx_range items its) as [o es']. simpl.
  by rewrite add_edges_app.
Qed.

Lemma plan_from_elem tx_range it items e :
  e ∈ (plan_from tx_range it items).2 →
  ∃ jt, jt ∈ items ∧ e = (it.1, jt.1) ∧
        in_range tx_range it.1 it.2 jt.1 jt.2 = inr true.
Proof.
  induction items as [|jt items IH]; simpl.
  - by intros ?%elem_of_nil.
  - destruct (in_range tx_range it.1 it.2 jt.1 jt.2) as [err|b] eqn:E.
    + by intros ?%elem_of_nil.
    + destruct (plan_from tx_range it items) as [o es]. simpl in *.
      intros He.
      assert (e = (it.1, jt.1) ∧ b = true ∨ e ∈ es) as [[-> ->]|Hin].
      { destruct b; [|by right].
        apply elem_of_cons in He as [->|?]; [by left|by right]. }
      * exists jt. split; [left|done].
      * destruct (IH Hin) as (kt & ? & ? & ?). exists kt.
        split; [by right|done].
Qed.

Lemma plan_from_done tx_range it items jt :
  (plan_from tx_range it items).1 = inr tt → jt ∈ items →
  ∃ b, in_range tx_range it.1 it.2 jt.1 jt.2 = inr b ∧
       (b = true → (it.1, jt.1) ∈ (plan_from tx_range it items).2).
Proof.
  induction items as [|kt items IH]; simpl.
  - by intros _ ?%elem_of_nil.
  - destruct (in_range tx_range it.1 it.2 kt.1 kt.2) as [err|b] eqn:E;
      [done|].
    destruct (plan_from tx_range it items) as [o es]. simpl in *.
    intros -> [->|Hin]%elem_of_cons.
    + exists b. split; [done|]. intros ->. left.
    + destruct (IH eq_refl Hin) as (b' & ? & Hb'). exists b'.
      split; [done|]. intros Hb. destruct b; [right|]; by apply Hb'.
Qed.

Lemma plan_from_raised tx_range it items err :
  (plan_from tx_range it items).1 = inl err →
  ∃ jt, jt ∈ items ∧ in_range tx_range it.1 it.2 jt.1 jt.2 = inl err.
Proof.
  induction items as [|kt items IH]; simpl; [done|].
  destruct (in_range tx_range it.1 it.2 kt.1 kt.2) as [err'|b] eqn:E.
  - intros [= ->]. exists kt. split; [left|done].
  - destruct (plan_from tx_range it items) as [o es]. simpl in *.
    intros Ho. destruct (IH Ho) as (jt & ? & ?). exists jt.
    split; [by right|done].
Qed.

Lemma plan_from_total tx_range it items :
  (∀ jt, jt ∈ items → ∃ b, in_range tx_range it.1 it.2 jt.1 jt.2 = inr b) →
  (plan_from tx_range it items).1 = inr tt.
Proof.
  induction items as [|kt items IH]; simpl; [done|]. intros Hall.
  destruct (Hall kt) as [b ->]; [left|].
  assert ((plan_from tx_range it items).1 = inr tt) as Hrest.
  { apply IH. intros jt Hjt. apply Hall. by right. }
  by destruct (plan_from tx_range it items).
Qed.

Lemma plan_all_elem tx_range items its e :
  e ∈ (plan_all tx_range items its).2 →
  ∃ it jt, it ∈ its ∧ jt ∈ items ∧ e = (it.1, jt.1) ∧
           in_range tx_range it.1 it.2 jt.1 jt.2 = inr true.
Proof.
  induction its as [|it its IH]; simpl.
  - by intros ?%elem_of_nil.
  - pose proof (plan_from_elem tx_range it items e) as Hfrom.
    destruct (plan_from tx_range it items) as [[err|[]] es]; simpl in *.
    + intros (jt & ? & ? & ?)%Hfrom. exists it, jt. split; [left|done].
    + destruct (plan_all tx_range items its) as [o es']. simpl in *.
      intros [Hin|Hin]%elem_of_app.
      * destruct (Hfrom Hin) as (jt & ? & ? & ?). exists it, jt.
        split; [left|done].
      * destruct (IH Hin) as (kt & jt & ? & ?). exists kt, jt.
        split; [by right|done].
Qed.

Lemma plan_all_done tx_range items its it jt :
  (plan_all tx_range items its).1 = inr tt → it ∈ its → jt ∈ items →
  ∃ b, in_range tx_range it.1 it.2 jt.1 jt.2 = inr b ∧
       (b = true → (it.1, jt.1) ∈ (plan_all tx_range items its).2).
Proof.
  induction its as [|kt its IH]; simpl.
  - by intros _ ?%elem_of_nil.
  - pose proof (plan_from_done tx_range kt items jt) as Hfrom.
    destruct (plan_from tx_range kt items) as [[err|[]] es]; simpl in *;
      [done|].
    destruct (plan_all tx_range items its) as [o es']. simpl in *.
    intros -> [->|Hin]%elem_of_cons Hjt.
    + destruct (Hfrom eq_refl Hjt) as (b & ? & Hb). exists b.
      split; [done|]. intros ?. apply elem_of_app. left. by apply Hb.
    + destruct (IH eq_refl Hin Hjt) as (b & ? & Hb). exists b.
      split; [done|]. intros ?. apply elem_of_app. right. by apply Hb.
Qed.

Lemma plan_all_raised tx_range items its err :
  (plan_all tx_range items its).1 = inl err →
  ∃ it jt, it ∈ its ∧ jt ∈ items ∧
           in_range tx_range it.1 it.2 jt.1 jt.2 = inl err.
Proof.
  induction its as [|kt its IH]; simpl; [done|].
  pose proof (plan_from_raised tx_range kt items) as Hfrom.
  destruct (plan_from tx_range kt items) as [[err'|[]] es]; simpl in *.
  - intros [= ->]. destruct (Hfrom err eq_refl) as (jt & ? & ?).
    exists kt, jt. split; [left|done].
  - destruct (plan_all tx_range items its) as [o es']. simpl in *.
    intros Ho. destruct (IH Ho) as (it & jt & ? & ?). exists it, jt.
    split; [by right|done].
Qed.

Lemma plan_all_total tx_range items its :
  (∀ it jt, it ∈ its → jt ∈ items →
            ∃ b, in_range tx_range it.1 it.2 jt.1 jt.2 = inr b) →
  (plan_all tx_range items its).1 = inr tt.
Proof.
  induction its as [|kt its IH]; simpl; [done|]. intros Hall.
  pose proof (plan_from_total tx_range kt items) as Hfrom.
  destruct (plan_from tx_range kt items) as [[err|[]] es]; simpl in *.
  - discriminate Hfrom. intros jt Hjt. apply Hall; [left|done].
  - assert ((plan_all tx_range items its).1 = inr tt) as Hrest.
    { apply IH. intros it jt Hit Hjt. apply Hall; [by right|done]. }
    by destruct (plan_all tx_range items its).
Qed.

Lemma in_range_true tx_range i pi j pj :
  in_range tx_range i pi j pj = inr true ↔
  i ≠ j ∧ ∃ d, euclidean_distance pi pj = inr d ∧ nleb d tx_range = true.
Proof.
  unfold in_range. destruct (decide (i = j)) as [->|Hne].
  - rewrite bool_decide_eq_false_2 by (by intros ?). split; [done|].
    by intros [? _].
  - rewrite bool_decide_eq_true_2 by done. split.
    + intros (d & Hd & [= Hle])%and_then_inr. eauto.
    + intros (_ & d & -> & Hle). simpl. by rewrite Hle.
Qed.

Lemma in_range_raises tx_range i pi j pj err :
  in_range tx_range i pi j pj = inl err ↔
  i ≠ j ∧ euclidean_distance pi pj = inl err.
Proof.
  unfold in_range. destruct (decide (i = j)) as [->|Hne].
  - rewrite bool_decide_eq_false_2 by (by intros ?). split; [done|].
    by intros [? _].
  - rewrite bool_decide_eq_true_2 by done.
    destruct (euclidean_distance pi pj); simpl; split; try done.
    + by intros [= ->].
    + by intros [_ [= ->]].
    + by intros [_ ?].
Qed.

Lemma in_range_returns tx_range i pi j pj :
  (i ≠ j → ∃ d, euclidean_distance pi pj = inr d) →
  ∃ b, in_range tx_range i pi j pj = inr b.
Proof.
  unfold in_range. destruct (decide (i = j)) as [->|Hne].
  - rewrite bool_decide_eq_false_2 by (by intros ?). eauto.
  - rewrite bool_decide_eq_true_2 by done.
    intros Hd. destruct (Hd Hne) as [d ->]. simpl. eauto.
Qed.

Lemma in_range_linked positions tx_range it jt :
  it ∈ map_to_list positions → jt ∈ map_to_list positions →
  in_range tx_range it.1 it.2 jt.1 jt.2 = inr true →
  linked positions tx_range it.1 jt.1.
Proof.
  destruct it as [i pi], jt as [j pj]. simpl.
  intros Hi%elem_of_map_to_list Hj%elem_of_map_to_list
    (Hne & d & Hd & Hle)%in_range_true.
  split; [done|]. by exists pi, pj, d.
Qed.

Lemma linked_in_range positions tx_range i j :
  linked positions tx_range i j →
  ∃ it jt, it ∈ map_to_list positions ∧ jt ∈ map_to_list positions ∧
           it.1 = i ∧ jt.1 = j ∧
           in_range tx_range it.1 it.2 jt.1 jt.2 = inr true.
Proof.
  intros (Hne & pi & pj & d & Hi & Hj & Hd & Hle).
  exists (i, pi), (j, pj). rewrite !elem_of_map_to_list. simpl.
  repeat split; try done. apply in_range_true. eauto.
Qed.

(** [connect_nodes] as the plan of its two loops. *)
Lemma connect_nodes_plan G positions tx_range :
  connect_nodes G positions tx_range
  = ((plan_all tx_range (map_to_list positions) (map_to_list positions)).1,
     add_edges G
       (plan_all tx_range (map_to_list positions) (map_to_list positions)).2).
Proof. apply connect_all_plan. Qed.

Lemma plan_linked positions tx_range a b :
  (a, b) ∈ (plan_all tx_range (map_to_list positions)
              (map_to_list positions)).2 →
  linked positions tx_range a b.
Proof.
  intros (it & jt & Hi & Hj & [= -> ->] & Hr)%plan_all_elem.
  by eapply in_range_linked.
Qed.

Lemma linked_plan positions tx_range a b :
  (plan_all tx_range (map_to_list positions) (map_to_list positions)).1
    = inr tt →
  linked positions tx_range a b →
  (a, b) ∈ (plan_all tx_range (map_to_list positions)
              (map_to_list positions)).2.
Proof.
  intros Hdone (it & jt & Hi & Hj & <- & <- & Hr)%linked_in_range.
  destruct (plan_all_done _ _ _ it jt Hdone Hi Hj) as (b & Hb & Hin).
  apply Hin. congruence.
Qed.

(** Whatever the outcome, the edges of the graph left are those it had
    and edges between nodes that passed the test. *)
Lemma has_edge_connect_nodes_any G positions tx_range a b :
  (has_edge G a b → has_edge (connect_nodes G positions tx_range).2 a b) ∧
  (has_edge (connect_nodes G positions tx_range).2 a b →
   has_edge G a b ∨ linked positions tx_range a b ∨
   linked positions tx_range b a).
Proof.
  rewrite connect_nodes_plan. simpl. rewrite has_edge_add_edges. split.
  - by left.
  - intros [?|[?%plan_linked|?%plan_linked]]; auto.
Qed.

(** When the loops run to their end, all such edges are there. *)
Lemma has_edge_connect_nodes G positions tx_range a b :
  (connect_nodes G positions tx_range).1 = inr tt →
  has_edge (connect_nodes G positions tx_range).2 a b ↔
  has_edge G a b ∨ linked positions tx_range a b ∨
  linked positions tx_range b a.
Proof.
  rewrite connect_nodes_plan. simpl. intros Hdone.
  rewrite has_edge_add_edges. split.
  - intros [?|[?%plan_linked|?%plan_linked]]; auto.
  - intros [?|[?|?]]; [by left|right; left|right; right];
      by apply linked_plan.
Qed.

(** The loops run to their end exactly when every distance they ask for
    can be computed. *)
Lemma connect_nodes_finishes G positions tx_range :
  (connect_nodes G positions tx_range).1 = inr tt ↔
  ∀ i j pi pj, i ≠ j → positions !! i = Some pi → positions !! j = Some pj →
               ∃ d, euclidean_distance pi pj = inr d.
Proof.
  rewrite connect_nodes_plan. simpl. split.
  - intros Hdone i j pi pj Hne Hi%elem_of_map_to_list Hj%elem_of_map_to_list.
    destruct (plan_all_done _ _ _ (i, pi) (j, pj) Hdone Hi Hj)
      as (b & Hb & _).
    simpl in Hb. unfold in_range in Hb.
    rewrite bool_decide_eq_true_2 in Hb by done.
    destruct (euclidean_distance pi pj); [done|eauto].
  - intros Hall. apply plan_all_total.
    intros [i pi] [j pj] Hi%elem_of_map_to_list Hj%elem_of_map_to_list.
    apply in_range_returns. intros Hne. by eapply Hall.
Qed.

Lemma connect_nodes_raises G positions tx_range err :
  (connect_nodes G positions tx_range).1 = inl err →
  ∃ i j pi pj, i ≠ j ∧ positions !! i = Some pi ∧ positions !! j = Some pj ∧
               euclidean_distance pi pj = inl err.
Proof.
  rewrite connect_nodes_plan. simpl.
  intros ([i pi] & [j pj] & Hi%elem_of_map_to_list & Hj%elem_of_map_to_list
          & [Hne Hd]%in_range_raises)%plan_all_raised.
  by exists i, j, pi, pj.
Qed.

Lemma wf_graph_connect_nodes G positions tx_range :
  wf_graph G → wf_graph (connect_nodes G positions tx_range).2.
Proof. rewrite connect_nodes_plan. apply wf_graph_add_edges. Qed.

Lemma keys_map_to_list positions :
  list_to_set (map_to_list positions).*1 = dom positions.
Proof.
  apply set_eq. intros k.
  rewrite elem_of_list_to_set, elem_of_dom, list_elem_of_fmap. split.
  - intros ([k' p] & -> & Hk). apply elem_of_map_to_list in Hk. eauto.
  - intros [p Hp]. exists (k, p). split; [done|].
    by apply elem_of_map_to_list.
Qed.

Lemma linked_dom positions tx_range a b :
  linked positions tx_range a b → a ∈ dom positions ∧ b ∈ dom positions.
Proof.
  intros (_ & pa & pb & d & Ha & Hb & _). rewrite !elem_of_dom. eauto.
Qed.

Lemma elem_of_nodes_connect_nodes G positions tx_range n :
  n ∈ nodes (connect_nodes G positions tx_range).2 ↔
  n ∈ nodes G ∨
  ∃ e, e ∈ (plan_all tx_range (map_to_list positions)
              (map_to_list positions)).2 ∧ (n = e.1 ∨ n = e.2).
Proof. rewrite connect_nodes_plan. apply elem_of_nodes_add_edges. Qed.

Lemma nodes_connect_nodes G positions tx_range :
  dom positions ⊆ nodes G →
  nodes (connect_nodes G positions tx_range).2 = nodes G.
Proof.
  intros Hsub. apply set_eq. intros n.
  rewrite elem_of_nodes_connect_nodes. split; [|by left].
  intros [?|([a b] & Hl%plan_linked & Hn)]; [done|].
  apply linked_dom in Hl as [? ?]. simpl in Hn. apply Hsub.
  by destruct Hn as [->| ->].
Qed.

Lemma nodes_build_topology positions tx_range :
  nodes (build_topology positions tx_range).2 = dom positions.
Proof.
  unfold build_topology.
  assert (nodes (add_nodes_from ∅ (map_to_list positions).*1)
          = dom positions) as Hn.
  { rewrite nodes_add_nodes_from, keys_map_to_list. unfold nodes.
    rewrite dom_empty_L. set_solver. }
  rewrite nodes_connect_nodes; [done|]. by rewrite Hn.
Qed.

Lemma has_edge_build_topology_any positions tx_range a b :
  has_edge (build_topology positions tx_range).2 a b →
  linked positions tx_range a b ∨ linked positions tx_range b a.
Proof.
  unfold build_topology.
  intros [Hab|?]%has_edge_connect_nodes_any; [|done].
  apply has_edge_add_nodes_from in Hab. by apply has_edge_empty in Hab.
Qed.

Lemma has_edge_build_topology positions tx_range a b :
  (build_topology positions tx_range).1 = inr tt →
  has_edge (build_topology positions tx_range).2 a b ↔
  linked positions tx_range a b ∨ linked positions tx_range b a.
Proof.
  unfold build_topology. intros Hdone.
  rewrite (has_edge_connect_nodes _ _ _ _ _ Hdone), has_edge_add_nodes_from.
  pose proof (has_edge_empty a b). tauto.
Qed.

Lemma wf_graph_build_topology positions tx_range :
  wf_graph (build_topology positions tx_range).2.
Proof.
  apply wf_graph_connect_nodes, wf_graph_add_nodes_from, wf_graph_empty.
Qed.

Lemma linked_sym positions tx_range i j :
  (∀ x y : coord, and_then (nsub x y) nsqr = and_then (nsub y x) nsqr) →
  linked positions tx_range i j → linked positions tx_range j i.
Proof.
  intros Hsq (Hne & pi & pj & d & Hi & Hj & Hd & Hle).
  split; [done|]. exists pj, pi, d. repeat split; try done.
  by rewrite (euclidean_distance_sym pj pi Hsq).
Qed.

End TopologyFacts.

(** ** Facts about the search *)

Section SearchFacts.
Import Nx Search.
Implicit Types (G : Graph) (s t u v : node) (p q : list node).

Lemma elem_of_expand G (seen : gset node) v :
  v ∈ expand G seen ↔ v ∈ seen ∨ ∃ u, u ∈ seen ∧ has_edge G u v.
Proof.
  unfold expand, has_edge. rewrite elem_of_union, elem_of_union_list.
  split.
  - intros [?|(X & HX & Hv)]; [by left|right].
    apply list_elem_of_fmap in HX as (u & -> & Hu).
    exists u. split; [by apply elem_of_elements in Hu|done].
  - intros [?|(u & Hu & Hv)]; [by left|right].
    exists (neighbors G u). split; [|done].
    apply list_elem_of_fmap. exists u. split; [done|].
    by apply elem_of_elements.
Qed.

Lemma reached_succ_subseteq G s k : reached G s k ⊆ reached G s (S k).
Proof. intros v Hv. simpl. apply elem_of_expand. by left. Qed.

Lemma reached_mono G s j k :
  (j ≤ k)%nat → reached G s j ⊆ reached G s k.
Proof.
  induction 1 as [|k _ IH]; [done|].
  etrans; [exact IH|apply reached_succ_subseteq].
Qed.

Lemma pred_of_Some G (level : gset node) t u :
  pred_of G level t = Some u → u ∈ level ∧ has_edge G u t.
Proof.
  unfold pred_of. intros Hf. apply find_some in Hf as [Hin Hb].
  apply bool_decide_eq_true in Hb.
  split; [|done]. by apply elem_of_elements, list_elem_of_In.
Qed.

Lemma pred_of_None G (level : gset node) t u :
  pred_of G level t = None → u ∈ level → ¬ has_edge G u t.
Proof.
  unfold pred_of. intros Hf Hu Hut.
  apply elem_of_elements, list_elem_of_In in Hu.
  pose proof (find_none _ _ Hf u Hu) as Hb. simpl in Hb.
  apply bool_decide_eq_false in Hb. by apply Hb.
Qed.

Lemma is_path_singleton G s : is_path G s s [s].
Proof.
  repeat split. intros i u v _ Hv. by destruct i.
Qed.

Lemma is_path_snoc G s u t p :
  is_path G s u p → has_edge G u t → is_path G s t (p ++ [t]).
Proof.
  intros (Hh & Hl & He) Hut. destruct p as [|a p]; [done|].
  split; [done|]. split; [by rewrite last_snoc|].
  intros i a' b Ha Hb.
  pose proof (lookup_lt_Some _ _ _ Hb) as Hlen.
  rewrite length_app in Hlen. simpl in Hlen.
  destruct (decide (S i < length (a :: p))%nat) as [Hlt|Hge].
  - rewrite lookup_app_l in Ha by (simpl in *; lia).
    rewrite lookup_app_l in Hb by done. eauto.
  - assert (S i = length (a :: p)) as Hi by (simpl in *; lia).
    rewrite lookup_app_l in Ha by (simpl in *; lia).
    rewrite lookup_app_r in Hb by (simpl in *; lia).
    rewrite Hi, Nat.sub_diag in Hb. simpl in Hb.
    rewrite last_lookup in Hl. rewrite <- Hi in Hl. simpl in Hl.
    congruence.
Qed.

Lemma is_path_snoc_inv G s t p x :
  p ≠ [] → is_path G s t (p ++ [x]) →
  x = t ∧ ∃ u, is_path G s u p ∧ has_edge G u t.
Proof.
  intros Hne (Hh & Hl & He). rewrite last_snoc in Hl.
  injection Hl as ->. split; [done|].
  destruct p as [|a p]; [done|].
  destruct (last (a :: p)) as [u|] eqn:Hu.
  2:{ by apply last_None in Hu. }
  exists u. split.
  - split; [done|]. split; [done|].
    intros i a' b Ha Hb. apply (He i).
    + by apply lookup_app_l_Some.
    + by apply lookup_app_l_Some.
  - rewrite last_lookup in Hu. apply (He (pred (length (a :: p)))).
    + by apply lookup_app_l_Some.
    + replace (S (pred (length (a :: p)))) with (length (a :: p))
        by (simpl; lia).
      by apply list_lookup_middle.
Qed.

(** The path rebuilt for a node of level k is a route and has at most k
    hops. *)
Lemma path_to_is_path G s k t :
  t ∈ reached G s k →
  is_path G s t (path_to G s k t) ∧ (length (path_to G s k t) ≤ S k)%nat.
Proof.
  induction k as [|k IH] in t |- *; simpl; intros Ht.
  - apply elem_of_singleton in Ht as ->.
    split; [apply is_path_singleton|done].
  - destruct (decide (t ∈ reached G s k)) as [Hin|Hnin].
    + destruct (IH t Hin). split; [done|lia].
    + apply elem_of_expand in Ht as [?|(u & Hu & Hut)]; [done|].
      destruct (pred_of G (reached G s k) t) as [u'|] eqn:E.
      * apply pred_of_Some in E as [Hu' Hu't].
        destruct (IH u' Hu') as [Hp Hlen]. split.
        -- by eapply is_path_snoc.
        -- rewrite length_app. simpl. lia.
      * exfalso. by eapply pred_of_None.
Qed.

(** Every route of h hops ends in level h. *)
Lemma is_path_reached G s t p :
  is_path G s t p → t ∈ reached G s (hops p).
Proof.
  induction p as [|x p IH] using rev_ind in t |- *.
  - by intros (Hh & _).
  - intros Hp. destruct (decide (p = [])) as [->|Hne].
    + destruct Hp as (Hh & Hl & _). simpl in *.
      injection Hh as ->. injection Hl as ->. set_solver.
    + apply is_path_snoc_inv in Hp as (-> & u & Hu & Hut); [|done].
      apply IH in Hu. unfold hops in *. rewrite length_app. simpl.
      replace (pred (length p + 1)) with (S (pred (length p)))
        by (destruct p; simpl; [done|lia]).
      simpl. apply elem_of_expand. right. eauto.
Qed.

Lemma path_to_minimal G s k t j :
  t ∈ reached G s k → t ∈ reached G s j →
  (length (path_to G s k t) ≤ S j)%nat.
Proof.
  induction k as [|k IH] in t |- *; simpl; intros Hk Hj.
  - lia.
  - destruct (decide (t ∈ reached G s k)) as [Hin|Hnin]; [by apply IH|].
    assert (k < j)%nat as Hlt.
    { destruct (decide (j ≤ k)%nat) as [Hle|]; [|lia].
      exfalso. apply Hnin. by eapply reached_mono. }
    destruct (pred_of G (reached G s k) t) as [u|] eqn:E; simpl; [|lia].
    apply pred_of_Some in E as [Hu _].
    destruct (path_to_is_path _ _ _ _ Hu) as [_ Hlen].
    rewrite length_app. simpl. lia.
Qed.

Lemma reached_nodes G s k :
  wf_graph G → s ∈ nodes G → reached G s k ⊆ nodes G.
Proof.
  intros Hwf Hs. induction k as [|k IH]; simpl.
  - set_solver.
  - intros v [Hv|(u & Hu & Huv)]%elem_of_expand; [by apply IH|].
    by destruct (Hwf u v Huv).
Qed.

Lemma reached_stable G s k j :
  reached G s (S k) = reached G s k →
  reached G s (k + j) = reached G s k.
Proof.
  intros Hst. induction j as [|j IH].
  - by rewrite Nat.add_0_r.
  - rewrite Nat.add_succ_r. simpl. rewrite IH. exact Hst.
Qed.

(** Until the levels stop growing, each one adds a node. *)
Lemma reached_grows G s k :
  reached G s (S k) = reached G s k ∨
  (k + 2 ≤ size (reached G s (S k)))%nat.
Proof.
  induction k as [|k IH].
  - destruct (decide (reached G s 1 ⊆ reached G s 0)) as [Hsub|Hnsub].
    + left. apply set_eq. intros v. split; [apply Hsub|].
      apply reached_succ_subseteq.
    + right. assert (reached G s 0 ⊂ reached G s 1) as Hlt.
      { split; [apply reached_succ_subseteq|done]. }
      apply subset_size in Hlt.
      change (reached G s 0) with ({[s]} : gset node) in Hlt.
      rewrite size_singleton in Hlt. lia.
  - destruct (decide (reached G s (S (S k)) ⊆ reached G s (S k)))
      as [Hsub|Hnsub].
    + left. apply set_eq. intros v. split; [apply Hsub|].
      apply reached_succ_subseteq.
    + right. destruct IH as [Heq|Hsz].
      * exfalso. apply Hnsub.
        change (reached G s (S (S k))) with (expand G (reached G s (S k))).
        rewrite Heq. change (reached G s (S k) ⊆ reached G s k).
        by rewrite Heq.
      * assert (reached G s (S k) ⊂ reached G s (S (S k))) as Hlt.
        { split; [apply reached_succ_subseteq|done]. }
        apply subset_size in Hlt. lia.
Qed.

(** With as many rounds as the graph has nodes the search has seen all
    it will ever see. *)
Lemma reached_saturates G s j :
  wf_graph G → s ∈ nodes G →
  reached G s j ⊆ reached G s (size (nodes G)).
Proof.
  intros Hwf Hs.
  assert (reached G s (S (size (nodes G))) = reached G s (size (nodes G)))
    as Hst.
  { destruct (reached_grows G s (size (nodes G))) as [Heq|Hsz]; [done|].
    pose proof (subseteq_size _ _
      (reached_nodes G s (S (size (nodes G))) Hwf Hs)). lia. }
  destruct (decide (j ≤ size (nodes G))%nat) as [Hle|Hgt].
  - by apply reached_mono.
  - replace j with (size (nodes G) + (j - size (nodes G)))%nat by lia.
    by rewrite reached_stable.
Qed.

Lemma shortest_path_not_found G s t :
  s ∉ nodes G ∨ t ∉ nodes G → shortest_path G s t = inl NodeNotFound.
Proof.
  intros Hnot. unfold shortest_path.
  destruct (decide (s ∈ nodes G ∧ t ∈ nodes G)) as [[? ?]|]; [|done].
  by destruct Hnot.
Qed.

Lemma shortest_path_no_path G s t :
  s ∈ nodes G → t ∈ nodes G → (∀ q, ¬ is_path G s t q) →
  shortest_path G s t = inl NetworkXNoPath.
Proof.
  intros Hs Ht Hno. unfold shortest_path.
  rewrite decide_True by done.
  destruct (decide (t ∈ reached G s (size (nodes G)))) as [Hin|]; [|done].
  destruct (path_to_is_path _ _ _ _ Hin) as [Hp _]. by apply Hno in Hp.
Qed.

Lemma shortest_path_found G s t q :
  wf_graph G → s ∈ nodes G → t ∈ nodes G → is_path G s t q →
  ∃ p, shortest_path G s t = inr p ∧ is_path G s t p ∧
       ∀ q', is_path G s t q' → (hops p ≤ hops q')%nat.
Proof.
  intros Hwf Hs Ht Hq. unfold shortest_path.
  rewrite decide_True by done.
  assert (t ∈ reached G s (size (nodes G))) as Hin.
  { eapply reached_saturates; [done..|]. by apply is_path_reached. }
  rewrite decide_True by done.
  eexists. split; [done|].
  destruct (path_to_is_path _ _ _ _ Hin) as [Hp _]. split; [done|].
  intros q' Hq'. apply is_path_reached in Hq'.
  pose proof (path_to_minimal _ _ _ _ _ Hin Hq') as Hmin.
  unfold hops in *. lia.
Qed.

Lemma source_reached G s k : s ∈ reached G s k.
Proof. apply (reached_mono G s 0 k); [lia|]. simpl. set_solver. Qed.

Lemma path_to_source G s k : path_to G s k s = [s].
Proof.
  induction k as [|k IH]; simpl; [done|].
  by rewrite decide_True by apply source_reached.
Qed.

Lemma shortest_path_self G s :
  s ∈ nodes G → shortest_path G s s = inr [s].
Proof.
  intros Hs. unfold shortest_path.
  rewrite decide_True by done.
  rewrite decide_True by apply source_reached.
  by rewrite path_to_source.
Qed.

End SearchFacts.

(** ** Facts about the energy dictionary *)

Section EnergyFacts.
Implicit Types (e energy : gmap node Z) (n k : node) (c : Z).
Implicit Types (hs : list (node * node)).

Lemma insert_debit e n c v :
  e !! n = Some v → <[n := v - c]> e = debit e n c.
Proof.
  intros Hn. apply map_eq. intros k. unfold debit.
  rewrite lookup_insert, lookup_alter.
  destruct (decide (n = k)) as [->|]; [by rewrite Hn|done].
Qed.

Lemma lookup_debit e n c k :
  debit e n c !! k =
  if decide (n = k) then (λ v, v - c) <$> e !! k else e !! k.
Proof.
  unfold debit. rewrite lookup_alter. by destruct (decide (n = k)) as [->|].
Qed.

Lemma dom_debit e n c : dom (debit e n c) = dom e.
Proof. apply dom_alter_L. Qed.

Lemma dom_charge_hops tx rx hs e : dom (charge_hops tx rx hs e) = dom e.
Proof.
  unfold charge_hops. revert e.
  induction hs as [|h hs IH]; intros e; simpl; [done|].
  by rewrite IH, !dom_debit.
Qed.

Lemma sends_cons n h hs :
  sends n (h :: hs) = (if decide (h.1 = n) then 1 else 0) + sends n hs.
Proof.
  unfold sends. rewrite filter_cons.
  destruct (decide (h.1 = n)); simpl; lia.
Qed.

Lemma receives_cons n h hs :
  receives n (h :: hs) = (if decide (h.2 = n) then 1 else 0) + receives n hs.
Proof.
  unfold receives. rewrite filter_cons.
  destruct (decide (h.2 = n)); simpl; lia.
Qed.

(** Each node pays the transmission cost once per hop it sends and the
    reception cost once per hop it receives. *)
Lemma lookup_charge_hops tx rx hs e n :
  charge_hops tx rx hs e !! n =
  (λ v, v - tx * sends n hs - rx * receives n hs) <$> e !! n.
Proof.
  unfold charge_hops. revert e.
  induction hs as [|h hs IH]; intros e; simpl.
  - unfold sends, receives. simpl. destruct (e !! n); simpl; [|done].
    f_equal. lia.
  - rewrite IH, sends_cons, receives_cons, !lookup_debit.
    destruct (decide (h.2 = n)), (decide (h.1 = n));
      destruct (e !! n); simpl; try done; f_equal; lia.
Qed.

Lemma total_energy_insert e n v :
  e !! n = None → total_energy (<[n := v]> e) = v + total_energy e.
Proof.
  intros Hn. unfold total_energy.
  rewrite map_fold_insert_L; [done| |done].
  intros. lia.
Qed.

Lemma total_energy_debit e n c :
  n ∈ dom e → total_energy (debit e n c) = total_energy e - c.
Proof.
  intros [v Hv]%elem_of_dom.
  rewrite <- (insert_debit e n c v Hv).
  rewrite <- (insert_delete_eq e n (v - c)).
  rewrite <- (insert_id e n v Hv) at 2.
  rewrite <- (insert_delete_eq e n v).
  rewrite !total_energy_insert by apply lookup_delete_eq. lia.
Qed.

Lemma total_energy_charge_hops tx rx hs e :
  (∀ h, h ∈ hs → h.1 ∈ dom e ∧ h.2 ∈ dom e) →
  total_energy (charge_hops tx rx hs e) =
  total_energy e - (tx + rx) * Z.of_nat (length hs).
Proof.
  unfold charge_hops. revert e.
  induction hs as [|h hs IH]; intros e Hdom; simpl; [lia|].
  destruct (Hdom h) as [H1 H2]; [left|].
  rewrite IH.
  - rewrite !total_energy_debit; rewrite ?dom_debit; try done. lia.
  - intros h' Hh'. rewrite !dom_debit. apply Hdom. by right.
Qed.

Lemma depletes_refl on e : depletes on e e.
Proof. intros n. repeat split; eauto. intros v Hv. exists v. split; [done|lia]. Qed.

Lemma depletes_trans on e1 e2 e3 :
  depletes on e1 e2 → depletes on e2 e3 → depletes on e1 e3.
Proof.
  intros H12 H23 n.
  destruct (H12 n) as (Ha & Hb & Hc), (H23 n) as (Ha' & Hb' & Hc').
  repeat split.
  - intros Hn. rewrite Ha', Ha; done.
  - intros v Hv. destruct (Hb v Hv) as (v' & Hv' & Hle).
    destruct (Hb' v' Hv') as (v'' & Hv'' & Hle'). exists v''. split; [done|lia].
  - eauto.
Qed.

Lemma depletes_weaken on on' e e' :
  (∀ n, n ∈ on → n ∈ on') → depletes on e e' → depletes on' e e'.
Proof.
  intros Hsub Hd n. destruct (Hd n) as (Ha & Hb & Hc).
  repeat split; eauto.
Qed.

Lemma depletes_debit e n c : 0 ≤ c → depletes [n] e (debit e n c).
Proof.
  intros Hc k. rewrite lookup_debit.
  destruct (decide (n = k)) as [->|Hne].
  - repeat split.
    + intros Hk. exfalso. apply Hk. left.
    + intros v ->. simpl. exists (v - c). split; [done|lia].
    + by intros ->.
  - repeat split; eauto. intros v Hv. exists v. split; [done|lia].
Qed.

End EnergyFacts.

(** ** Facts about paths and their hops *)

Section HopFacts.
Import Nx Search.
Implicit Types (G : Graph) (p path : list node).

Lemma length_hops_of p : length (hops_of p) = hops p.
Proof.
  unfold hops. induction p as [|a [|b p] IH]; simpl in *; [done..|].
  by rewrite IH.
Qed.

Lemma elem_of_hops_of p h : h ∈ hops_of p → h.1 ∈ p ∧ h.2 ∈ p.
Proof.
  induction p as [|a [|b p] IH]; simpl.
  - by intros ?%elem_of_nil.
  - by intros ?%elem_of_nil.
  - intros [->|Hh]%elem_of_cons; simpl.
    + split; [left|right; left].
    + destruct (IH Hh). split; by right.
Qed.

Lemma sends_not_in n p : n ∉ p → sends n (hops_of p) = 0.
Proof.
  intros Hn.
  assert (∀ h, h ∈ hops_of p → h.1 ≠ n) as Hall.
  { intros h Hh%elem_of_hops_of Heq. apply Hn. rewrite <- Heq. tauto. }
  induction (hops_of p) as [|h hs IH]; [done|].
  rewrite sends_cons, IH.
  - rewrite decide_False; [done|]. apply Hall. left.
  - intros h' Hh'. apply Hall. by right.
Qed.

Lemma receives_not_in n p : n ∉ p → receives n (hops_of p) = 0.
Proof.
  intros Hn.
  assert (∀ h, h ∈ hops_of p → h.2 ≠ n) as Hall.
  { intros h Hh%elem_of_hops_of Heq. apply Hn. rewrite <- Heq. tauto. }
  induction (hops_of p) as [|h hs IH]; [done|].
  rewrite receives_cons, IH.
  - rewrite decide_False; [done|]. apply Hall. left.
  - intros h' Hh'. apply Hall. by right.
Qed.

(** The nodes of a route through a well-formed graph are nodes of it. *)
Lemma is_path_nodes G s t p n :
  wf_graph G → s ∈ nodes G → is_path G s t p → n ∈ p → n ∈ nodes G.
Proof.
  intros Hwf Hs (Hh & _ & He) Hn.
  apply list_elem_of_lookup in Hn as [i Hi].
  destruct i as [|i].
  - rewrite <- head_lookup, Hh in Hi. by injection Hi as <-.
  - destruct (p !! i) as [u|] eqn:Hu.
    + by destruct (Hwf u n (He i u n Hu Hi)).
    + apply lookup_ge_None in Hu. apply lookup_lt_Some in Hi. lia.
Qed.

(** A route of at least one hop has its first node sending. *)
Lemma sends_head s p :
  head p = Some s → (1 ≤ hops p)%nat → 1 ≤ sends s (hops_of p).
Proof.
  destruct p as [|a [|b p]]; simpl; unfold hops; simpl; [done|lia|].
  intros [= ->] _. rewrite sends_cons. simpl.
  rewrite decide_True by done. unfold sends. lia.
Qed.

End HopFacts.

(** ** Facts about the routing loop *)

Section RoutingFacts.
Import Nx Search.
Implicit Types (G : Graph) (w : World) (e energy : gmap node Z).
Implicit Types (p path : list node) (logs : list string) (mac : string).

Lemma world_eta w : {| w_graph := w_graph w; w_energy := w_energy w |} = w.
Proof. by destruct w. Qed.

Lemma bind_inv {A B : Type} (m : M A) (f : A → M B) w r w' :
  bind m f w = (r, w') →
  (∃ a w1, m w = (inr a, w1) ∧ f a w1 = (r, w')) ∨
  (∃ ex, m w = (inl ex, w') ∧ r = inl ex).
Proof.
  unfold bind. destruct (m w) as [[ex|a] w1].
  - intros [= <- <-]. right. by exists ex.
  - intros Hf. left. by exists a, w1.
Qed.

Lemma energy_sub_Some w n c v :
  w_energy w !! n = Some v →
  energy_sub n c w =
  (inr tt, {| w_graph := w_graph w; w_energy := debit (w_energy w) n c |}).
Proof.
  intros Hv. unfold energy_sub. rewrite Hv.
  by rewrite (insert_debit _ _ _ _ Hv).
Qed.

Lemma energy_sub_frame n c w (r : exn + unit) w' :
  0 ≤ c → energy_sub n c w = (r, w') →
  w_graph w' = w_graph w ∧ depletes [n] (w_energy w) (w_energy w').
Proof.
  unfold energy_sub. intros Hc.
  destruct (w_energy w !! n) as [v|] eqn:E; intros [= <- <-]; simpl.
  - split; [done|]. rewrite (insert_debit _ _ _ _ E).
    by apply depletes_debit.
  - split; [done|apply depletes_refl].
Qed.

Lemma policy_costs_mac_costs mac tx rx :
  policy_costs mac tx rx → mac_costs mac = Some (tx, rx).
Proof. by intros [(-> & -> & ->)|(-> & -> & ->)]. Qed.

Lemma mac_costs_policy_costs mac tx rx :
  mac_costs mac = Some (tx, rx) → policy_costs mac tx rx.
Proof.
  unfold mac_costs, policy_costs.
  destruct (String.eqb mac "CSMA") eqn:E1.
  - apply String.eqb_eq in E1. intros [= <- <-]. by left.
  - destruct (String.eqb mac "TDMA") eqn:E2; [|done].
    apply String.eqb_eq in E2. intros [= <- <-]. by right.
Qed.

Lemma mac_costs_None mac :
  mac ≠ "CSMA" → mac ≠ "TDMA" → mac_costs mac = None.
Proof.
  intros H1 H2. unfold mac_costs.
  apply String.eqb_neq in H1, H2. by rewrite H1, H2.
Qed.

Lemma charge_hop_costs mac tx rx s r w :
  mac_costs mac = Some (tx, rx) →
  s ∈ dom (w_energy w) → r ∈ dom (w_energy w) →
  charge_hop mac s r w =
  (inr tt, {| w_graph := w_graph w;
              w_energy := debit (debit (w_energy w) s tx) r rx |}).
Proof.
  unfold mac_costs, charge_hop. intros Hc [vs Hs]%elem_of_dom Hr.
  assert (∀ c d, bind (energy_sub s c) (λ _, energy_sub r d) w =
                 (inr tt, {| w_graph := w_graph w;
                             w_energy := debit (debit (w_energy w) s c) r d |}))
    as Hgen.
  { intros c d. unfold bind. rewrite (energy_sub_Some _ _ _ _ Hs).
    assert (is_Some (debit (w_energy w) s c !! r)) as [vr Hvr].
    { apply elem_of_dom. by rewrite dom_debit. }
    by rewrite (energy_sub_Some _ _ _ vr). }
  destruct (String.eqb mac "CSMA"); [injection Hc as <- <-; apply Hgen|].
  destruct (String.eqb mac "TDMA"); [injection Hc as <- <-; apply Hgen|done].
Qed.

Lemma charge_hop_unknown mac s r w :
  mac_costs mac = None → charge_hop mac s r w = (inr tt, w).
Proof.
  unfold mac_costs, charge_hop.
  destruct (String.eqb mac "CSMA"); [done|].
  by destruct (String.eqb mac "TDMA").
Qed.

Lemma charge_hop_frame mac s r w (res : exn + unit) w' :
  charge_hop mac s r w = (res, w') →
  w_graph w' = w_graph w ∧ depletes [s; r] (w_energy w) (w_energy w').
Proof.
  assert (∀ c d, 0 ≤ c → 0 ≤ d →
            bind (energy_sub s c) (λ _, energy_sub r d) w = (res, w') →
            w_graph w' = w_graph w ∧
            depletes [s; r] (w_energy w) (w_energy w')) as Hgen.
  { intros c d Hc Hd [(a & w1 & H1 & H2)|(ex & H1 & _)]%bind_inv.
    - apply energy_sub_frame in H1 as [Hg1 Hd1]; [|done].
      apply energy_sub_frame in H2 as [Hg2 Hd2]; [|done].
      split; [congruence|].
      eapply depletes_trans; (eapply depletes_weaken; [|eassumption]);
        intros n; set_solver.
    - apply energy_sub_frame in H1 as [Hg1 Hd1]; [|done].
      split; [done|]. eapply depletes_weaken; [|eassumption].
      intros n; set_solver. }
  unfold charge_hop.
  destruct (String.eqb mac "CSMA"); [by apply Hgen|].
  destruct (String.eqb mac "TDMA"); [by apply Hgen|].
  intros [= <- <-]. split; [done|apply depletes_refl].
Qed.

Lemma route_hops_cons mac a b rest logs :
  route_hops mac (a :: b :: rest) logs =
  bind (charge_hop mac a b)
       (λ _, route_hops mac (b :: rest) (logs ++ [hop_log a b])).
Proof. reflexivity. Qed.

(** Under a recognised protocol, with every node of the path in the
    energy dictionary, the loop runs to its end. *)
Lemma route_hops_costs mac tx rx p logs w :
  mac_costs mac = Some (tx, rx) →
  (∀ n, n ∈ p → n ∈ dom (w_energy w)) →
  route_hops mac p logs w =
  (inr (logs ++ transcript p),
   {| w_graph := w_graph w;
      w_energy := charge_hops tx rx (hops_of p) (w_energy w) |}).
Proof.
  intros Hc. induction p as [|a p IH] in logs, w |- *; intros Hdom.
  - simpl. unfold ret, transcript. simpl.
    by rewrite app_nil_r, world_eta.
  - destruct p as [|b rest].
    + simpl. unfold ret, transcript. simpl.
      by rewrite app_nil_r, world_eta.
    + rewrite route_hops_cons. unfold bind.
      rewrite (charge_hop_costs mac tx rx a b w Hc);
        [|apply Hdom; set_solver..].
      rewrite IH.
      * unfold transcript. simpl. by rewrite <- app_assoc.
      * intros n Hn. simpl. rewrite !dom_debit. apply Hdom. by right.
Qed.

(** Under any other protocol value the loop only writes the transcript. *)
Lemma route_hops_unknown mac p logs w :
  mac_costs mac = None →
  route_hops mac p logs w = (inr (logs ++ transcript p), w).
Proof.
  intros Hc. induction p as [|a p IH] in logs |- *.
  - simpl. unfold ret, transcript. simpl. by rewrite app_nil_r.
  - destruct p as [|b rest].
    + simpl. unfold ret, transcript. simpl. by rewrite app_nil_r.
    + rewrite route_hops_cons. unfold bind.
      rewrite (charge_hop_unknown mac a b w Hc), IH.
      unfold transcript. simpl. by rewrite <- app_assoc.
Qed.

(** However the loop ends, it leaves the graph alone and only lowers the
    energy of nodes of the path. *)
Lemma route_hops_frame mac p logs w (res : exn + list string) w' :
  route_hops mac p logs w = (res, w') →
  w_graph w' = w_graph w ∧ depletes p (w_energy w) (w_energy w').
Proof.
  induction p as [|a p IH] in logs, w |- *.
  - simpl. intros [= <- <-]. split; [done|apply depletes_refl].
  - destruct p as [|b rest].
    + simpl. intros [= <- <-]. split; [done|apply depletes_refl].
    + rewrite route_hops_cons.
      intros [(x & w1 & H1 & H2)|(ex & H1 & _)]%bind_inv.
      * apply charge_hop_frame in H1 as [Hg1 Hd1].
        apply IH in H2 as [Hg2 Hd2]. split; [congruence|].
        eapply depletes_trans; (eapply depletes_weaken; [|eassumption]);
          intros n; set_solver.
      * apply charge_hop_frame in H1 as [Hg1 Hd1]. split; [done|].
        eapply depletes_weaken; [|eassumption]. intros n; set_solver.
Qed.

Lemma simulate_routing_found G s t e mac p logs w' :
  shortest_path G s t = inr p →
  route_hops mac p [] {| w_graph := G; w_energy := e |} = (inr logs, w') →
  simulate_routing G s t e mac = (inr (Some p, logs), w').
Proof.
  intros Hp Hr.
  unfold simulate_routing, except_no_path, bind, nx_shortest_path. simpl.
  by rewrite Hp, Hr.
Qed.

Lemma simulate_routing_inv G s t e mac p logs w' :
  simulate_routing G s t e mac = (inr (Some p, logs), w') →
  shortest_path G s t = inr p ∧
  route_hops mac p [] {| w_graph := G; w_energy := e |} = (inr logs, w').
Proof.
  unfold simulate_routing, except_no_path, bind, nx_shortest_path, ret.
  simpl.
  destruct (shortest_path G s t) as [[]|p']; try done.
  destruct (route_hops mac p' [] _) as [[[]|logs'] w1] eqn:Hr; try done.
  by intros [= <- <- <-].
Qed.

Lemma simulate_routing_catches_no_path G s t e mac :
  shortest_path G s t = inl NetworkXNoPath →
  simulate_routing G s t e mac =
  (inr (None, ["No path found!"]), {| w_graph := G; w_energy := e |}).
Proof.
  intros Hp.
  unfold simulate_routing, except_no_path, bind, nx_shortest_path. simpl.
  by rewrite Hp.
Qed.

Lemma simulate_routing_node_not_found G s t e mac :
  shortest_path G s t = inl NodeNotFound →
  simulate_routing G s t e mac =
  (inl NodeNotFound, {| w_graph := G; w_energy := e |}).
Proof.
  intros Hp.
  unfold simulate_routing, except_no_path, bind, nx_shortest_path. simpl.
  by rewrite Hp.
Qed.

End RoutingFacts.

(** ** Facts about the transcript *)

Section TranscriptFacts.
Import Nx Search.

Lemma hops_of_lookup p (i : nat) u v :
  hops_of p !! i = Some (u, v) ↔ p !! i = Some u ∧ p !! S i = Some v.
Proof.
  induction p as [|a p IH] in i |- *; [by split; [|intros [? ?]]|].
  destruct p as [|b rest].
  - simpl. split; [done|]. by intros [_ ?].
  - change (hops_of (a :: b :: rest)) with ((a, b) :: hops_of (b :: rest)).
    destruct i as [|i]; simpl.
    + split; [by intros [= -> ->]|]. by intros [[= ->] [= ->]].
    + apply IH.
Qed.

Lemma transcript_lookup (path : list node) (i : nat) (u v : node) :
  path !! i = Some u → path !! S i = Some v →
  transcript path !! i = Some (pretty u +:+ " → " +:+ pretty v).
Proof.
  intros Hu Hv. unfold transcript. rewrite list_lookup_fmap.
  by rewrite (proj2 (hops_of_lookup path i u v) (conj Hu Hv)).
Qed.

Lemma length_transcript (path : list node) :
  length (transcript path) = hops path.
Proof. unfold transcript. by rewrite length_fmap, length_hops_of. Qed.

End TranscriptFacts.

(** ** Facts about the three-node scenario *)

Section ScenarioFacts.
Import Nx Search.

Lemma line_graph_wf : wf_graph line_graph.
Proof. apply wf_graph_build_topology. Qed.

Lemma line_build_finishes :
  (build_topology line_positions 1.5%float).1 = inr tt.
Proof. by vm_compute. Qed.

Lemma line_distances (i j : node) (pi pj : Z * Z) :
  i ≠ j → line_positions !! i = Some pi → line_positions !! j = Some pj →
  ∃ d, euclidean_spec pi pj d.
Proof.
  intros Hne Hi Hj.
  destruct (proj1 (connect_nodes_finishes _ _ _) line_build_finishes
              i j pi pj Hne Hi Hj) as [d Hd].
  exists d. by apply euclidean_distance_spec.
Qed.

Lemma line_graph_nodes : nodes line_graph = {[0; 1; 2]}.
Proof. by vm_compute. Qed.

Lemma line_graph_node n : n = 0 ∨ n = 1 ∨ n = 2 → n ∈ nodes line_graph.
Proof. rewrite line_graph_nodes. set_solver. Qed.

Lemma line_graph_not_node n :
  n ≠ 0 → n ≠ 1 → n ≠ 2 → n ∉ nodes line_graph.
Proof. rewrite line_graph_nodes. set_solver. Qed.

Lemma line_energy_covers : nodes line_graph ⊆ dom (initial_energy 3).
Proof.
  rewrite line_graph_nodes.
  replace (dom (initial_energy 3)) with ({[0; 1; 2]} : gset node)
    by (by vm_compute).
  done.
Qed.

Lemma line_graph_edges :
  has_edge line_graph 0 1 ∧ has_edge line_graph 1 2 ∧
  ¬ has_edge line_graph 0 2.
Proof.
  unfold has_edge.
  replace (neighbors line_graph 0) with ({[1]} : gset node)
    by (by vm_compute).
  replace (neighbors line_graph 1) with ({[0; 2]} : gset node)
    by (by vm_compute).
  set_solver.
Qed.

Lemma line_path : is_path line_graph 0 2 [0; 1; 2].
Proof.
  destruct line_graph_edges as (H01 & H12 & _).
  repeat split.
  intros [|[|[|i]]] u v; simpl; intros [= <-] [= <-]; done.
Qed.

Lemma isolated_graph_nodes : nodes isolated_graph = {[0; 1; 2]}.
Proof. by vm_compute. Qed.

Lemma isolated_graph_no_edge u v : ¬ has_edge isolated_graph u v.
Proof.
  unfold has_edge, neighbors.
  replace isolated_graph
    with (<[0 := ∅]> (<[1 := ∅]> (<[2 := ∅]> ∅)) : Graph)
    by (by vm_compute).
  rewrite !lookup_insert. repeat case_decide; rewrite ?lookup_empty;
    set_solver.
Qed.

Lemma no_edge_no_path G s t :
  s ≠ t → (∀ u v, ¬ has_edge G u v) → ∀ q, ¬ is_path G s t q.
Proof.
  intros Hne Hno q (Hh & Hl & He).
  destruct q as [|a [|b q]]; simpl in *; [done|congruence|].
  by apply (Hno a b), (He 0%nat).
Qed.

End ScenarioFacts.

(** * The properties of the specification *)

Section Claims.
Import Nx Search.

Lemma hops_zero_ends (p : list node) (s t : node) :
  head p = Some s → last p = Some t → hops p = 0%nat → s = t.
Proof.
  destruct p as [|a [|b p]]; simpl; unfold hops; simpl; try done.
  by intros [= ->] [= ->].
Qed.

(** C3, as the code has it: for every positions map and transmission range such
    that the distance of every two distinct nodes can be computed,
    [connect_nodes], run on the graph of the map's nodes, returns, and the
    graph has exactly those nodes; two distinct nodes are joined by an edge
    if and only if the Euclidean distance between their positions (the
    square root of the sum of the squares of the two coordinate
    differences) is at most the range; every edge joins two distinct nodes
    and is there in both directions (symmetric, no self-loop); a node with
    no other node in range is a node of the graph with no neighbour.  The
    number system is any one in which squaring a difference has the same
    outcome in both orders of the operands. *)
Theorem connect_nodes_geometric {coord dist range : Type}
    `{Numeric coord dist range}
    (positions : gmap node (coord * coord)) (tx_range : range) :
  (∀ a b : coord, and_then (nsub a b) nsqr = and_then (nsub b a) nsqr) →
  (∀ i j pi pj,
     i ≠ j → positions !! i = Some pi → positions !! j = Some pj →
     ∃ d, euclidean_spec pi pj d) →
  (build_topology positions tx_range).1 = inr tt ∧
  nodes (build_topology positions tx_range).2 = dom positions ∧
  (∀ i j pi pj,
     i ≠ j → positions !! i = Some pi → positions !! j = Some pj →
     (has_edge (build_topology positions tx_range).2 i j ↔
      ∃ d, euclidean_spec pi pj d ∧ nleb d tx_range = true)) ∧
  (∀ i j,
     has_edge (build_topology positions tx_range).2 i j →
     i ≠ j ∧ i ∈ dom positions ∧ j ∈ dom positions ∧
     has_edge (build_topology positions tx_range).2 j i) ∧
  (∀ i pi,
     positions !! i = Some pi →
     (∀ j pj d, j ≠ i → positions !! j = Some pj →
                euclidean_spec pi pj d → nleb d tx_range = false) →
     i ∈ nodes (build_topology positions tx_range).2 ∧
     neighbors (build_topology positions tx_range).2 i = ∅).
Proof.
  intros Hsq Hcomp.
  assert ((build_topology positions tx_range).1 = inr tt) as Hdone.
  { apply connect_nodes_finishes. intros i j pi pj Hne Hi Hj.
    destruct (Hcomp i j pi pj Hne Hi Hj) as [d Hd]. exists d.
    by apply euclidean_distance_spec. }
  split; [done|]. split; [apply nodes_build_topology|]. split; [|split].
  - intros i j pi pj Hne Hi Hj.
    rewrite (has_edge_build_topology _ _ _ _ Hdone). split.
    + intros Hl.
      assert (linked positions tx_range i j)
        as (_ & pi' & pj' & d & Hi' & Hj' & Hd & Hle).
      { destruct Hl as [Hl|Hl]; [done|]. by apply (linked_sym _ _ _ _ Hsq). }
      exists d. split; [|done]. apply euclidean_distance_spec. congruence.
    + intros (d & Hd%euclidean_distance_spec & Hle). left.
      split; [done|]. by exists pi, pj, d.
  - intros i j Hij. pose proof Hij as Hl.
    apply (has_edge_build_topology _ _ _ _ Hdone) in Hl.
    assert (linked positions tx_range i j) as Hlij.
    { destruct Hl as [Hl|Hl]; [done|]. by apply (linked_sym _ _ _ _ Hsq). }
    destruct (linked_dom _ _ _ _ Hlij) as [Hdi Hdj].
    destruct Hlij as [Hne _].
    split; [done|]. split; [done|]. split; [done|].
    apply (has_edge_build_topology _ _ _ _ Hdone). tauto.
  - intros i pi Hi Hfar. split.
    + rewrite nodes_build_topology. apply elem_of_dom. eauto.
    + apply set_eq. intros j. split; [|set_solver].
      intros Hij. exfalso.
      change (has_edge (build_topology positions tx_range).2 i j) in Hij.
      apply (has_edge_build_topology _ _ _ _ Hdone) in Hij.
      assert (linked positions tx_range i j)
        as (Hne & pi' & pj & d & Hi' & Hj & Hd & Hle).
      { destruct Hij as [Hl|Hl]; [done|]. by apply (linked_sym _ _ _ _ Hsq). }
      assert (pi' = pi) as -> by congruence.
      apply euclidean_distance_spec in Hd.
      rewrite (Hfar j pj d) in Hle; [done|congruence|done|done].
Qed.

Lemma connect_nodes_geometric_witness :
  (build_topology line_positions 1.5%float).1 = inr tt ∧
  nodes (build_topology line_positions 1.5%float).2 = dom line_positions ∧
  (∀ i j pi pj,
     i ≠ j → line_positions !! i = Some pi → line_positions !! j = Some pj →
     (has_edge (build_topology line_positions 1.5%float).2 i j ↔
      ∃ d, euclidean_spec pi pj d ∧ nleb d 1.5%float = true)) ∧
  (∀ i j,
     has_edge (build_topology line_positions 1.5%float).2 i j →
     i ≠ j ∧ i ∈ dom line_positions ∧ j ∈ dom line_positions ∧
     has_edge (build_topology line_positions 1.5%float).2 j i) ∧
  (∀ i pi,
     line_positions !! i = Some pi →
     (∀ j pj d, j ≠ i → line_positions !! j = Some pj →
                euclidean_spec pi pj d → nleb d 1.5%float = false) →
     i ∈ nodes (build_topology line_positions 1.5%float).2 ∧
     neighbors (build_topology line_positions 1.5%float).2 i = ∅).
Proof.
  apply (connect_nodes_geometric line_positions 1.5%float).
  - intros a b. simpl. f_equal. lia.
  - apply line_distances.
Defined.

(** C3 as stated fails: with integer coordinates and the range 1.5, a
    node 10^200 away from the node at the origin has no node within
    range, yet it is not simply left isolated: the square of the
    difference is too large for the conversion [math.sqrt] makes,
    [euclidean_distance] raises OverflowError, and the exception leaves
    [connect_nodes] before its loops are done. *)
Lemma connect_nodes_far_node_raises :
  far_positions !! 0 = Some (0, 0) ∧
  far_positions !! 1 = Some (10 ^ 200, 0) ∧
  PrimFloat.leb 0 1.5 = true ∧
  euclidean_distance (0, 0) (10 ^ 200, 0) = inl OverflowError ∧
  build_topology far_positions 1.5%float
    = (inl OverflowError, add_nodes_from ∅ [0; 1]) ∧
  (build_topology far_positions 1.5%float).1 ≠ inr tt.
Proof. repeat split; by vm_compute. Qed.

(** C2: when a route from source to sink exists, the path returned by
    [simulate_routing] starts at source, ends at sink, has an edge of the
    graph between every two consecutive nodes, and has no more hops than
    any route from source to sink. *)
Theorem simulate_routing_shortest (G : Graph) (source sink : node)
    (energy : gmap node Z) (mac_protocol : string) (q : list node) :
  wf_graph G → source ∈ nodes G → sink ∈ nodes G →
  nodes G ⊆ dom energy →
  is_path G source sink q →
  ∃ path logs w',
    simulate_routing G source sink energy mac_protocol
      = (inr (Some path, logs), w') ∧
    head path = Some source ∧ last path = Some sink ∧
    (∀ (i : nat) (u v : node),
       path !! i = Some u → path !! S i = Some v → has_edge G u v) ∧
    (∀ q', is_path G source sink q' → (hops path ≤ hops q')%nat).
Proof.
  intros Hwf Hs Ht Hcov Hq.
  destruct (shortest_path_found G source sink q Hwf Hs Ht Hq)
    as (p & Hsp & Hp & Hmin).
  destruct (mac_costs mac_protocol) as [[tx rx]|] eqn:Hc.
  - eexists p, _, _. split; [|by destruct Hp as (? & ? & ?)].
    eapply simulate_routing_found; [done|].
    apply (route_hops_costs _ tx rx); [done|]. simpl.
    intros n Hn. apply Hcov.
    exact (is_path_nodes G source sink p n Hwf Hs Hp Hn).
  - eexists p, _, _. split; [|by destruct Hp as (? & ? & ?)].
    eapply simulate_routing_found; [done|].
    by apply route_hops_unknown.
Qed.

Lemma simulate_routing_shortest_witness :
  ∃ path logs w',
    simulate_routing line_graph 0 2 (initial_energy 3) "CSMA"
      = (inr (Some path, logs), w') ∧
    head path = Some 0 ∧ last path = Some 2 ∧
    (∀ (i : nat) (u v : node),
       path !! i = Some u → path !! S i = Some v →
       has_edge line_graph u v) ∧
    (∀ q', is_path line_graph 0 2 q' → (hops path ≤ hops q')%nat).
Proof.
  apply (simulate_routing_shortest line_graph 0 2 (initial_energy 3)
           "CSMA" [0; 1; 2]).
  - apply line_graph_wf.
  - apply line_graph_node. lia.
  - apply line_graph_node. lia.
  - apply line_energy_covers.
  - apply line_path.
Defined.

(** C4: when source and sink are nodes of the graph with no route between
    them, [simulate_routing] returns (None, ["No path found!"]) and leaves
    every energy level as it was. *)
Theorem simulate_routing_no_path (G : Graph) (source sink : node)
    (energy : gmap node Z) (mac_protocol : string) :
  source ∈ nodes G → sink ∈ nodes G →
  (∀ q, ¬ is_path G source sink q) →
  simulate_routing G source sink energy mac_protocol
    = (inr (None, ["No path found!"]),
       {| w_graph := G; w_energy := energy |}).
Proof.
  intros Hs Ht Hno.
  by apply simulate_routing_catches_no_path, shortest_path_no_path.
Qed.

Lemma simulate_routing_no_path_witness :
  simulate_routing isolated_graph 0 2 (initial_energy 3) "CSMA"
    = (inr (None, ["No path found!"]),
       {| w_graph := isolated_graph; w_energy := initial_energy 3 |}).
Proof.
  apply (simulate_routing_no_path isolated_graph 0 2 (initial_energy 3)
           "CSMA").
  - rewrite isolated_graph_nodes. set_solver.
  - rewrite isolated_graph_nodes. set_solver.
  - apply no_edge_no_path; [lia|apply isolated_graph_no_edge].
Defined.

(** C6: when source and sink are the same node of the graph,
    [simulate_routing] returns the path of that single node (zero hops),
    an empty transcript, and leaves every energy level as it was. *)
Theorem simulate_routing_self (G : Graph) (source : node)
    (energy : gmap node Z) (mac_protocol : string) :
  source ∈ nodes G →
  simulate_routing G source source energy mac_protocol
    = (inr (Some [source], []), {| w_graph := G; w_energy := energy |}) ∧
  hops [source] = 0%nat.
Proof.
  intros Hs. split; [|done].
  eapply simulate_routing_found; [by apply shortest_path_self|done].
Qed.

Lemma simulate_routing_self_witness :
  simulate_routing line_graph 1 1 (initial_energy 3) "TDMA"
    = (inr (Some [1], []),
       {| w_graph := line_graph; w_energy := initial_energy 3 |}) ∧
  hops [1] = 0%nat.
Proof.
  apply (simulate_routing_self line_graph 1 (initial_energy 3) "TDMA").
  apply line_graph_node. lia.
Defined.

(** C1: when a route from source to sink exists and the protocol is CSMA
    (costs 2 and 1) or TDMA (costs 1 and 0, the floor halves of the CSMA
    costs), one call returns a shortest path of L hops and lowers the sum
    of all energy levels by L * tx_cost + L * rx_cost; every node loses
    tx_cost for each hop it sends and rx_cost for each hop it receives. *)
Theorem simulate_routing_cost (G : Graph) (source sink : node)
    (energy : gmap node Z) (mac_protocol : string) (tx_cost rx_cost : Z)
    (q : list node) :
  wf_graph G → source ∈ nodes G → sink ∈ nodes G →
  nodes G ⊆ dom energy →
  is_path G source sink q →
  policy_costs mac_protocol tx_cost rx_cost →
  ∃ path logs energy',
    simulate_routing G source sink energy mac_protocol
      = (inr (Some path, logs), {| w_graph := G; w_energy := energy' |}) ∧
    is_path G source sink path ∧
    (∀ q', is_path G source sink q' → (hops path ≤ hops q')%nat) ∧
    total_energy energy - total_energy energy'
      = Z.of_nat (hops path) * tx_cost + Z.of_nat (hops path) * rx_cost ∧
    (∀ n v, energy !! n = Some v →
            energy' !! n = Some (v - tx_cost * sends n (hops_of path)
                                   - rx_cost * receives n (hops_of path))) ∧
    (mac_protocol = "CSMA" →
       tx_cost = TRANSMISSION_COST ∧ rx_cost = RECEPTION_COST) ∧
    (mac_protocol = "TDMA" →
       tx_cost = TRANSMISSION_COST / 2 ∧ rx_cost = RECEPTION_COST / 2).
Proof.
  intros Hwf Hs Ht Hcov Hq Hpol.
  destruct (shortest_path_found G source sink q Hwf Hs Ht Hq)
    as (p & Hsp & Hp & Hmin).
  assert (∀ n, n ∈ p → n ∈ dom energy) as Hdom.
  { intros n Hn. apply Hcov.
    exact (is_path_nodes G source sink p n Hwf Hs Hp Hn). }
  exists p, (transcript p), (charge_hops tx_cost rx_cost (hops_of p) energy).
  split; [|split; [done|split; [done|split; [|split; [|split]]]]].
  - eapply simulate_routing_found; [done|].
    by rewrite (route_hops_costs _ tx_cost rx_cost);
      [|apply policy_costs_mac_costs|].
  - rewrite total_energy_charge_hops, length_hops_of; [lia|].
    intros h [H1 H2]%elem_of_hops_of. split; by apply Hdom.
  - intros n v Hv. by rewrite lookup_charge_hops, Hv.
  - by destruct Hpol as [(-> & -> & ->)|(-> & -> & ->)].
  - by destruct Hpol as [(-> & -> & ->)|(-> & -> & ->)].
Qed.

Lemma simulate_routing_cost_witness :
  ∃ path logs energy',
    simulate_routing line_graph 0 2 (initial_energy 3) "TDMA"
      = (inr (Some path, logs),
         {| w_graph := line_graph; w_energy := energy' |}) ∧
    is_path line_graph 0 2 path ∧
    (∀ q', is_path line_graph 0 2 q' → (hops path ≤ hops q')%nat) ∧
    total_energy (initial_energy 3) - total_energy energy'
      = Z.of_nat (hops path) * 1 + Z.of_nat (hops path) * 0 ∧
    (∀ n v, initial_energy 3 !! n = Some v →
            energy' !! n = Some (v - 1 * sends n (hops_of path)
                                   - 0 * receives n (hops_of path))) ∧
    ("TDMA" = "CSMA" → 1 = TRANSMISSION_COST ∧ 0 = RECEPTION_COST) ∧
    ("TDMA" = "TDMA" →
       1 = TRANSMISSION_COST / 2 ∧ 0 = RECEPTION_COST / 2).
Proof.
  apply (simulate_routing_cost line_graph 0 2 (initial_energy 3) "TDMA"
           1 0 [0; 1; 2]).
  - apply line_graph_wf.
  - apply line_graph_node. lia.
  - apply line_graph_node. lia.
  - apply line_energy_covers.
  - apply line_path.
  - right. repeat split; reflexivity.
Defined.

(** C5: three nodes at (0,0), (1,0), (2,0), range 1.5, all energies 100.
    Routing 0 to 2 under CSMA returns the path [0,1,2] with the transcript
    of its two hops and leaves the energies 98, 97, 99; under TDMA the
    energies left are 99, 99, 100. *)
Theorem line_scenario :
  build_topology line_positions 1.5%float = (inr tt, line_graph) ∧
  initial_energy 3 = <[0 := 100]> (<[1 := 100]> (<[2 := 100]> ∅)) ∧
  simulate_routing line_graph 0 2 (initial_energy 3) "CSMA"
    = (inr (Some [0; 1; 2], ["0 → 1"; "1 → 2"]),
       {| w_graph := line_graph;
          w_energy := <[0 := 98]> (<[1 := 97]> (<[2 := 99]> ∅)) |}) ∧
  simulate_routing line_graph 0 2 (initial_energy 3) "TDMA"
    = (inr (Some [0; 1; 2], ["0 → 1"; "1 → 2"]),
       {| w_graph := line_graph;
          w_energy := <[0 := 99]> (<[1 := 99]> (<[2 := 100]> ∅)) |}).
Proof. repeat split; by vm_compute. Qed.

(** C7, as the code has it: when source or sink is not a node of the
    graph, the search raises NodeNotFound; the handler of
    [simulate_routing] catches NetworkXNoPath only, so the exception
    leaves the function, with the energy levels as they were. *)
Theorem simulate_routing_invalid_selection (G : Graph) (source sink : node)
    (energy : gmap node Z) (mac_protocol : string) :
  source ∉ nodes G ∨ sink ∉ nodes G →
  simulate_routing G source sink energy mac_protocol
    = (inl NodeNotFound, {| w_graph := G; w_energy := energy |}).
Proof.
  intros Hnot.
  by apply simulate_routing_node_not_found, shortest_path_not_found.
Qed.

Lemma simulate_routing_invalid_selection_witness :
  simulate_routing line_graph 0 7 (initial_energy 3) "CSMA"
    = (inl NodeNotFound,
       {| w_graph := line_graph; w_energy := initial_energy 3 |}).
Proof.
  apply (simulate_routing_invalid_selection line_graph 0 7
           (initial_energy 3) "CSMA").
  right. apply line_graph_not_node; lia.
Defined.

(** C7 as stated fails: with sink 7, not a node of the three-node graph,
    the call returns nothing, refusal or other; it ends in the uncaught
    exception. *)
Lemma invalid_selection_not_refused :
  7 ∉ nodes line_graph ∧
  (simulate_routing line_graph 0 7 (initial_energy 3) "CSMA").1
    = inl NodeNotFound ∧
  ¬ (∃ refusal,
       (simulate_routing line_graph 0 7 (initial_energy 3) "CSMA").1
         = inr refusal).
Proof.
  split; [apply line_graph_not_node; lia|].
  assert ((simulate_routing line_graph 0 7 (initial_energy 3) "CSMA").1
          = inl NodeNotFound) as Hr by (by vm_compute).
  split; [done|]. rewrite Hr. by intros [refusal ?].
Qed.

(** C9: when a route exists and the protocol value is neither "CSMA" nor
    "TDMA", [simulate_routing] returns a route from source to sink with as
    few hops as any (the one the search finds) and the full transcript,
    one entry per hop, the i-th being the text "u → v" for the i-th node u
    and the (i+1)-th node v of the path, and leaves every energy level as
    it was. *)
Theorem simulate_routing_unknown_protocol (G : Graph) (source sink : node)
    (energy : gmap node Z) (mac_protocol : string) (q : list node) :
  wf_graph G → source ∈ nodes G → sink ∈ nodes G →
  is_path G source sink q →
  mac_protocol ≠ "CSMA" → mac_protocol ≠ "TDMA" →
  ∃ path logs,
    simulate_routing G source sink energy mac_protocol
      = (inr (Some path, logs), {| w_graph := G; w_energy := energy |}) ∧
    shortest_path G source sink = inr path ∧
    head path = Some source ∧ last path = Some sink ∧
    (∀ (i : nat) (u v : node),
       path !! i = Some u → path !! S i = Some v → has_edge G u v) ∧
    (∀ q', is_path G source sink q' → (length path ≤ length q')%nat) ∧
    S (length logs) = length path ∧
    (∀ (i : nat) (u v : node),
       path !! i = Some u → path !! S i = Some v →
       logs !! i = Some (pretty u +:+ " → " +:+ pretty v)).
Proof.
  intros Hwf Hs Ht Hq H1 H2.
  destruct (shortest_path_found G source sink q Hwf Hs Ht Hq)
    as (p & Hsp & Hp & Hmin).
  exists p, (transcript p). split; [|split; [done|]].
  - eapply simulate_routing_found; [done|].
    by rewrite route_hops_unknown by by apply mac_costs_None.
  - destruct Hp as (Hh & Hl & He). repeat split; try done.
    + intros q' Hq'. pose proof (Hmin q' Hq') as Hle.
      destruct Hq' as (Hh' & _ & _). unfold hops in Hle.
      destruct p as [|? p]; [done|]. destruct q' as [|? q']; [done|].
      simpl in *. lia.
    + rewrite length_transcript. unfold hops.
      by destruct p as [|? p].
    + apply transcript_lookup.
Qed.

Lemma simulate_routing_unknown_protocol_witness :
  ∃ path logs,
    simulate_routing line_graph 0 2 (initial_energy 3) "ALOHA"
      = (inr (Some path, logs),
         {| w_graph := line_graph; w_energy := initial_energy 3 |}) ∧
    shortest_path line_graph 0 2 = inr path ∧
    head path = Some 0 ∧ last path = Some 2 ∧
    (∀ (i : nat) (u v : node),
       path !! i = Some u → path !! S i = Some v →
       has_edge line_graph u v) ∧
    (∀ q', is_path line_graph 0 2 q' → (length path ≤ length q')%nat) ∧
    S (length logs) = length path ∧
    (∀ (i : nat) (u v : node),
       path !! i = Some u → path !! S i = Some v →
       logs !! i = Some (pretty u +:+ " → " +:+ pretty v)).
Proof.
  apply (simulate_routing_unknown_protocol line_graph 0 2
           (initial_energy 3) "ALOHA" [0; 1; 2]).
  - apply line_graph_wf.
  - apply line_graph_node. lia.
  - apply line_graph_node. lia.
  - apply line_path.
  - discriminate.
  - discriminate.
Defined.

(** C10: whenever [simulate_routing] returns a path, under CSMA, TDMA or
    any other protocol value, the graph is the one it was given, every
    node off the path has the energy it had, and no node has more energy
    than it had. *)
Theorem simulate_routing_frame (G : Graph) (source sink : node)
    (energy : gmap node Z) (mac_protocol : string) (path : list node)
    (logs : list string) (w' : World) :
  simulate_routing G source sink energy mac_protocol
    = (inr (Some path, logs), w') →
  w_graph w' = G ∧
  (∀ n, n ∉ path → w_energy w' !! n = energy !! n) ∧
  (∀ n v v', energy !! n = Some v → w_energy w' !! n = Some v' → v' ≤ v).
Proof.
  intros [_ Hr]%simulate_routing_inv.
  apply route_hops_frame in Hr as [Hg Hd]. simpl in *.
  split; [done|]. split.
  - intros n Hn. by apply (Hd n).
  - intros n v v' Hv Hv'. destruct (Hd n) as (_ & Hle & _).
    destruct (Hle v Hv) as (v'' & Hv'' & ?). congruence.
Qed.

Lemma simulate_routing_frame_witness :
  w_graph {| w_graph := line_graph;
             w_energy := <[0 := 98]> (<[1 := 99]> (initial_energy 2)) |}
    = line_graph ∧
  (∀ n, n ∉ [0; 1] →
        w_energy {| w_graph := line_graph;
                    w_energy := <[0 := 98]> (<[1 := 99]> (initial_energy 2)) |}
          !! n = initial_energy 2 !! n) ∧
  (∀ n v v',
     initial_energy 2 !! n = Some v →
     w_energy {| w_graph := line_graph;
                 w_energy := <[0 := 98]> (<[1 := 99]> (initial_energy 2)) |}
       !! n = Some v' →
     v' ≤ v).
Proof.
  apply (simulate_routing_frame line_graph 0 1 (initial_energy 2) "CSMA"
           [0; 1] ["0 → 1"]).
  by vm_compute.
Defined.

(** C8, as the code has it: when a route exists between two different
    nodes, under CSMA or TDMA, a second call on the energy levels the
    first one left returns the same path and transcript and takes from
    every node exactly what the first call took; the levels after the
    second call differ from those after the first. *)
Theorem simulate_routing_twice (G : Graph) (source sink : node)
    (energy : gmap node Z) (mac_protocol : string) (tx_cost rx_cost : Z)
    (q : list node) :
  wf_graph G → source ∈ nodes G → sink ∈ nodes G →
  nodes G ⊆ dom energy →
  is_path G source sink q →
  source ≠ sink →
  policy_costs mac_protocol tx_cost rx_cost →
  ∃ path logs energy1 energy2,
    simulate_routing G source sink energy mac_protocol
      = (inr (Some path, logs), {| w_graph := G; w_energy := energy1 |}) ∧
    simulate_routing G source sink energy1 mac_protocol
      = (inr (Some path, logs), {| w_graph := G; w_energy := energy2 |}) ∧
    energy2 ≠ energy1 ∧
    (∀ n v,
       energy !! n = Some v →
       energy1 !! n
         = Some (v - (tx_cost * sends n (hops_of path)
                      + rx_cost * receives n (hops_of path))) ∧
       energy2 !! n
         = Some (v - 2 * (tx_cost * sends n (hops_of path)
                          + rx_cost * receives n (hops_of path)))).
Proof.
  intros Hwf Hs Ht Hcov Hq Hne Hpol.
  destruct (shortest_path_found G source sink q Hwf Hs Ht Hq)
    as (p & Hsp & Hp & Hmin).
  assert (∀ n, n ∈ p → n ∈ dom energy) as Hdom.
  { intros n Hn. apply Hcov.
    exact (is_path_nodes G source sink p n Hwf Hs Hp Hn). }
  pose proof (policy_costs_mac_costs _ _ _ Hpol) as Hc.
  set (e1 := charge_hops tx_cost rx_cost (hops_of p) energy).
  set (e2 := charge_hops tx_cost rx_cost (hops_of p) e1).
  assert (∀ n v, energy !! n = Some v →
            e1 !! n = Some (v - (tx_cost * sends n (hops_of p)
                                 + rx_cost * receives n (hops_of p))) ∧
            e2 !! n = Some (v - 2 * (tx_cost * sends n (hops_of p)
                                     + rx_cost * receives n (hops_of p))))
    as Hlook.
  { intros n v Hv. unfold e2. rewrite lookup_charge_hops.
    unfold e1. rewrite lookup_charge_hops, Hv. simpl.
    split; f_equal; lia. }
  exists p, (transcript p), e1, e2.
  split; [|split; [|split; [|done]]].
  - eapply simulate_routing_found; [done|].
    by rewrite (route_hops_costs _ tx_cost rx_cost).
  - eapply simulate_routing_found; [done|].
    rewrite (route_hops_costs _ tx_cost rx_cost); [done|done|].
    simpl. intros n Hn. unfold e1. rewrite dom_charge_hops. by apply Hdom.
  - intros Heq.
    assert (is_Some (energy !! source)) as [v Hv].
    { apply elem_of_dom, Hcov, Hs. }
    destruct (Hlook source v Hv) as [H1 H2]. rewrite Heq, H1 in H2.
    assert (1 ≤ hops p)%nat as Hhops.
    { destruct Hp as (Hh & Hl & _).
      destruct (hops p) eqn:E; [|lia].
      by destruct (Hne (hops_zero_ends p source sink Hh Hl E)). }
    destruct Hp as (Hh & _ & _).
    pose proof (sends_head source p Hh Hhops) as Hsend.
    assert (0 ≤ receives source (hops_of p)) by (unfold receives; lia).
    destruct Hpol as [(_ & -> & ->)|(_ & -> & ->)];
      injection H2 as H2; lia.
Qed.

Lemma simulate_routing_twice_witness :
  ∃ path logs energy1 energy2,
    simulate_routing line_graph 0 2 (initial_energy 3) "CSMA"
      = (inr (Some path, logs),
         {| w_graph := line_graph; w_energy := energy1 |}) ∧
    simulate_routing line_graph 0 2 energy1 "CSMA"
      = (inr (Some path, logs),
         {| w_graph := line_graph; w_energy := energy2 |}) ∧
    energy2 ≠ energy1 ∧
    (∀ n v,
       initial_energy 3 !! n = Some v →
       energy1 !! n
         = Some (v - (2 * sends n (hops_of path)
                      + 1 * receives n (hops_of path))) ∧
       energy2 !! n
         = Some (v - 2 * (2 * sends n (hops_of path)
                          + 1 * receives n (hops_of path)))).
Proof.
  apply (simulate_routing_twice line_graph 0 2 (initial_energy 3) "CSMA"
           2 1 [0; 1; 2]).
  - apply line_graph_wf.
  - apply line_graph_node. lia.
  - apply line_graph_node. lia.
  - apply line_energy_covers.
  - apply line_path.
  - lia.
  - left. repeat split; reflexivity.
Defined.

(** C8 as stated fails when source and sink coincide: a route exists (the
    node alone), and the second call leaves the energy levels exactly as
    the first did, which had left them as they were. *)
Lemma routing_twice_same_node_idempotent :
  is_path line_graph 0 0 [0] ∧
  simulate_routing line_graph 0 0 (initial_energy 3) "CSMA"
    = (inr (Some [0], []),
       {| w_graph := line_graph; w_energy := initial_energy 3 |}) ∧
  simulate_routing line_graph 0 0
      (w_energy
         (simulate_routing line_graph 0 0 (initial_energy 3) "CSMA").2)
      "CSMA"
    = simulate_routing line_graph 0 0 (initial_energy 3) "CSMA".
Proof.
  split; [apply is_path_singleton|]. split; by vm_compute.
Qed.

End Claims.

(** * Further properties of the code *)

(** ** [generate_nodes] *)

Section GenerationFacts.
Context {num rng : Type}.
Variable uniform : num → num → rng → num * rng.
Variable zero : num.

Lemma elem_of_range (n k : Z) : k ∈ range n ↔ 0 ≤ k < n.
Proof.
  unfold range. rewrite list_elem_of_fmap. split.
  - intros (i & -> & Hi). apply elem_of_seq in Hi. lia.
  - intros Hk. exists (Z.to_nat k). split; [lia|].
    apply elem_of_seq. lia.
Qed.

Lemma dom_draw_positions ids (area_size : num) (g : rng) :
  dom (draw_positions uniform zero ids area_size g).1 = list_to_set ids.
Proof.
  induction ids as [|i ids IH] in g |- *; simpl.
  - by rewrite dom_empty_L.
  - destruct (uniform zero area_size g) as [x g1].
    destruct (uniform zero area_size g1) as [y g2].
    specialize (IH g2).
    destruct (draw_positions uniform zero ids area_size g2) as [m g3].
    simpl in *. by rewrite dom_insert_L, IH.
Qed.

Lemma draw_positions_drawn ids (area_size : num) (g : rng) i x y :
  (draw_positions uniform zero ids area_size g).1 !! i = Some (x, y) →
  ∃ g1 g2, x = (uniform zero area_size g1).1 ∧
           y = (uniform zero area_size g2).1.
Proof.
  induction ids as [|j ids IH] in g |- *; simpl.
  - by rewrite lookup_empty.
  - destruct (uniform zero area_size g) as [x' g1] eqn:E1.
    destruct (uniform zero area_size g1) as [y' g2] eqn:E2.
    specialize (IH g2).
    destruct (draw_positions uniform zero ids area_size g2) as [m g3].
    simpl in *. rewrite lookup_insert.
    destruct (decide (j = i)) as [->|Hne]; [|done].
    intros [= <- <-]. exists g, g1. by rewrite E1, E2.
Qed.

Lemma lookup_initial_energy (n : nat) (k : Z) :
  initial_energy n !! k
  = if decide (0 ≤ k < Z.of_nat n) then Some MAX_ENERGY else None.
Proof.
  unfold initial_energy. destruct (decide (0 ≤ k < Z.of_nat n)) as [Hk|Hk].
  - apply elem_of_list_to_map_1.
    + rewrite <- list_fmap_compose. apply NoDup_fmap_2; [|apply NoDup_seq].
      intros a b Hab. simpl in Hab. lia.
    + apply list_elem_of_fmap. exists (Z.to_nat k).
      split; [f_equal; lia|]. apply elem_of_seq. lia.
  - apply not_elem_of_list_to_map_1. rewrite <- list_fmap_compose.
    intros (i & -> & Hi)%list_elem_of_fmap. apply elem_of_seq in Hi.
    simpl in Hk. lia.
Qed.

(** X1: [generate_nodes] returns a position and an energy level for exactly
    the identities 0 .. num_nodes-1 (none when [num_nodes] is not
    positive); every level is MAX_ENERGY and every coordinate is a value
    the random source returned for [uniform(0, area_size)]. *)
Theorem generate_nodes_keys (num_nodes : Z) (area_size : num) (g : rng) :
  let '(positions, energy, _) :=
    generate_nodes uniform zero num_nodes area_size g in
  (∀ k, k ∈ dom positions ↔ 0 ≤ k < num_nodes) ∧
  dom energy = dom positions ∧
  (∀ k, 0 ≤ k < num_nodes → energy !! k = Some MAX_ENERGY) ∧
  (∀ k x y, positions !! k = Some (x, y) →
            ∃ g1 g2, x = (uniform zero area_size g1).1 ∧
                     y = (uniform zero area_size g2).1).
Proof.
  unfold generate_nodes.
  pose proof (dom_draw_positions (range num_nodes) area_size g) as Hdom.
  pose proof (draw_positions_drawn (range num_nodes) area_size g) as Hdr.
  destruct (draw_positions uniform zero (range num_nodes) area_size g)
    as [positions g'].
  simpl in *.
  assert (∀ k, k ∈ dom positions ↔ 0 ≤ k < num_nodes) as Hkeys.
  { intros k. by rewrite Hdom, elem_of_list_to_set, elem_of_range. }
  split; [done|]. split; [|split].
  - apply set_eq. intros k. rewrite Hkeys, elem_of_dom.
    rewrite lookup_initial_energy.
    destruct (decide (0 ≤ k < Z.of_nat (Z.to_nat num_nodes))) as [Hk|Hk].
    + split; [lia|eauto].
    + split; [by intros [? ?]|lia].
  - intros k Hk. rewrite lookup_initial_energy.
    rewrite decide_True; [done|lia].
  - intros k x y. apply Hdr.
Qed.

End GenerationFacts.

(** ** More about paths, the search and the loop *)

Section RouteFacts.
Import Nx Search.
Implicit Types (G : Graph) (w : World) (e energy : gmap node Z).
Implicit Types (p q path : list node) (logs : list string) (mac : string).

Lemma edges_hops_of G p :
  (∀ (i : nat) u v, p !! i = Some u → p !! S i = Some v → has_edge G u v) ↔
  Forall (λ h, has_edge G h.1 h.2) (hops_of p).
Proof.
  rewrite Forall_lookup. split.
  - intros He i [u v] [Hu Hv]%hops_of_lookup. simpl. by eapply He.
  - intros Hall i u v Hu Hv.
    apply (Hall i (u, v)). by apply hops_of_lookup.
Qed.

Lemma route_hops_logs mac p logs w logs' w' :
  route_hops mac p logs w = (inr logs', w') → logs' = logs ++ transcript p.
Proof.
  induction p as [|a p IH] in logs, w |- *.
  - simpl. intros [= <- <-]. unfold transcript. simpl.
    by rewrite app_nil_r.
  - destruct p as [|b rest].
    + simpl. intros [= <- <-]. unfold transcript. simpl.
      by rewrite app_nil_r.
    + rewrite route_hops_cons.
      intros [(x & w1 & H1 & H2)|(ex & _ & ?)]%bind_inv; [|done].
      apply IH in H2 as ->. unfold transcript. simpl.
      by rewrite <- app_assoc.
Qed.

Lemma shortest_path_inv G s t p :
  shortest_path G s t = inr p →
  s ∈ nodes G ∧ t ∈ nodes G ∧ is_path G s t p ∧
  ∀ q, is_path G s t q → (hops p ≤ hops q)%nat.
Proof.
  unfold shortest_path.
  destruct (decide (s ∈ nodes G ∧ t ∈ nodes G)) as [[Hs Ht]|]; [|done].
  destruct (decide (t ∈ reached G s (size (nodes G)))) as [Hin|]; [|done].
  intros [= <-]. split; [done|]. split; [done|].
  destruct (path_to_is_path _ _ _ _ Hin) as [Hp _]. split; [done|].
  intros q Hq%is_path_reached.
  pose proof (path_to_minimal _ _ _ _ _ Hin Hq) as Hmin.
  unfold hops in *. lia.
Qed.

Lemma shortest_path_exn G s t ex :
  shortest_path G s t = inl ex → ex = NodeNotFound ∨ ex = NetworkXNoPath.
Proof.
  unfold shortest_path.
  destruct (decide (s ∈ nodes G ∧ t ∈ nodes G)); [|intros [= <-]; by left].
  destruct (decide (t ∈ reached G s (size (nodes G)))); [done|].
  intros [= <-]. by right.
Qed.

Lemma simulate_routing_raises G s t e mac p ex w' :
  shortest_path G s t = inr p →
  route_hops mac p [] {| w_graph := G; w_energy := e |} = (inl ex, w') →
  ex ≠ NetworkXNoPath →
  simulate_routing G s t e mac = (inl ex, w').
Proof.
  intros Hp Hr Hex.
  unfold simulate_routing, except_no_path, bind, nx_shortest_path. simpl.
  rewrite Hp, Hr. by destruct ex.
Qed.

Lemma depletes_dom on e e' : depletes on e e' → dom e' = dom e.
Proof.
  intros Hd. apply set_eq. intros n. rewrite !elem_of_dom.
  destruct (Hd n) as (_ & Hsome & Hnone). split.
  - intros [v' Hv']. destruct (e !! n) as [v|] eqn:E; [eauto|].
    rewrite Hnone in Hv' by done. done.
  - intros [v Hv]. destruct (Hsome v Hv) as (v' & ? & _). eauto.
Qed.

(** Whatever the outcome, the world [simulate_routing] leaves has the
    graph it was given and an energy dictionary that only went down. *)
Lemma simulate_routing_world G s t e mac
    (r : exn + (option (list node) * list string)) w' :
  simulate_routing G s t e mac = (r, w') →
  w_graph w' = G ∧ ∃ on, depletes on e (w_energy w').
Proof.
  unfold simulate_routing, except_no_path, bind, nx_shortest_path, ret.
  simpl. destruct (shortest_path G s t) as [ex|p].
  - assert (w' = {| w_graph := G; w_energy := e |} →
            w_graph w' = G ∧ ∃ on, depletes on e (w_energy w')) as Hsame.
    { intros ->. split; [done|]. exists []. apply depletes_refl. }
    destruct ex; intros [= <- <-]; by apply Hsame.
  - destruct (route_hops mac p [] _) as [res w1] eqn:Hr.
    apply route_hops_frame in Hr as [Hg Hd]. simpl in *.
    assert (w' = w1 → w_graph w' = G ∧ ∃ on, depletes on e (w_energy w'))
      as Hsame.
    { intros ->. split; [done|]. by exists p. }
    destruct res as [[]|logs]; intros [= <- <-]; by apply Hsame.
Qed.

(** The nodes of a route of at least one hop, first two made explicit. *)
Lemma is_path_two s t p :
  head p = Some s → last p = Some t → s ≠ t → ∃ b rest, p = s :: b :: rest.
Proof.
  destruct p as [|a [|b rest]]; simpl; [done| |].
  - intros [= ->] [= ->] Hne. done.
  - intros [= ->] _ _. eauto.
Qed.

(** In the graph [connect_nodes] leaves from a positions dictionary (it is
    the finished graph when [connect_nodes] returns), with an energy entry
    for every key, routing between two nodes returns. *)
Lemma built_graph_routing_returns {coord dist range : Type}
    `{Numeric coord dist range}
    (positions : gmap node (coord * coord)) (tx_range : range) energy
    (source sink : node) mac :
  dom energy = dom positions →
  source ∈ nodes (build_topology positions tx_range).2 →
  sink ∈ nodes (build_topology positions tx_range).2 →
  ∃ res w',
    simulate_routing (build_topology positions tx_range).2 source sink
      energy mac = (inr res, w') ∧
    (res = (None, ["No path found!"]) ∨ ∃ p, res = (Some p, transcript p)).
Proof.
  intros Hdom Hs Ht. set (G := (build_topology positions tx_range).2) in *.
  destruct (shortest_path G source sink) as [ex|p] eqn:Hsp.
  - destruct (shortest_path_exn _ _ _ _ Hsp) as [->| ->].
    + unfold shortest_path in Hsp. repeat case_decide; naive_solver.
    + eexists _, _. split; [by apply simulate_routing_catches_no_path|].
      by left.
  - destruct (shortest_path_inv _ _ _ _ Hsp) as (_ & _ & Hp & _).
    destruct (mac_costs mac) as [[tx rx]|] eqn:Hc.
    + eexists _, _. split; [|right; by exists p].
      eapply simulate_routing_found; [done|].
      apply (route_hops_costs _ tx rx); [done|]. simpl.
      intros n Hn. rewrite Hdom.
      rewrite <- (nodes_build_topology positions tx_range).
      apply (is_path_nodes G source sink p n); try done.
      apply wf_graph_build_topology.
    + eexists _, _. split; [|right; by exists p].
      eapply simulate_routing_found; [done|].
      by apply route_hops_unknown.
Qed.

End RouteFacts.

(** ** [simulate_routing]: transcript, exceptions, the whole session *)

Section RoutingExtras.
Import Nx Search.

Lemma dom_initial_energy (n : nat) (k : Z) :
  k ∈ dom (initial_energy n) ↔ 0 ≤ k < Z.of_nat n.
Proof.
  rewrite elem_of_dom, lookup_initial_energy.
  destruct (decide (0 ≤ k < Z.of_nat n)) as [Hk|Hk].
  - split; [done|eauto].
  - split; [by intros [? ?]|done].
Qed.

Lemma generate_nodes_same_keys {num rng : Type}
    (uniform : num → num → rng → num * rng) (zero : num)
    (num_nodes : Z) (area_size : num) (g : rng) (k : Z) :
  (k ∈ dom (generate_nodes uniform zero num_nodes area_size g).1.1
   ↔ 0 ≤ k < num_nodes) ∧
  (k ∈ dom (generate_nodes uniform zero num_nodes area_size g).1.2
   ↔ 0 ≤ k < num_nodes).
Proof.
  unfold generate_nodes.
  pose proof (dom_draw_positions uniform zero (range num_nodes) area_size g)
    as Hdom.
  destruct (draw_positions uniform zero (range num_nodes) area_size g)
    as [positions g'].
  simpl in *. rewrite Hdom, elem_of_list_to_set, elem_of_range.
  rewrite dom_initial_energy. split; [done|lia].
Qed.

(** X2: whenever [simulate_routing] returns a path, that path is the one
    the search finds for the graph, source and sink alone (neither the
    energy levels nor the protocol influence it), and the transcript has
    one entry per hop, the i-th naming the i-th and (i+1)-th node. *)
Theorem simulate_routing_transcript (G : Graph) (source sink : node)
    (energy : gmap node Z) (mac_protocol : string) (path : list node)
    (logs : list string) (w' : World) :
  simulate_routing G source sink energy mac_protocol
    = (inr (Some path, logs), w') →
  shortest_path G source sink = inr path ∧
  length logs = hops path ∧
  (∀ (i : nat) (u v : node),
     path !! i = Some u → path !! S i = Some v →
     logs !! i = Some (pretty u +:+ " → " +:+ pretty v)).
Proof.
  intros [Hsp Hr]%simulate_routing_inv.
  apply route_hops_logs in Hr as ->. simpl.
  split; [done|]. unfold transcript. split.
  - by rewrite length_fmap, length_hops_of.
  - apply transcript_lookup.
Qed.

Lemma simulate_routing_transcript_witness :
  shortest_path line_graph 0 2 = inr [0; 1; 2] ∧
  length ["0 → 1"; "1 → 2"] = hops [0; 1; 2] ∧
  (∀ (i : nat) (u v : node),
     [0; 1; 2] !! i = Some u → [0; 1; 2] !! S i = Some v →
     ["0 → 1"; "1 → 2"] !! i
     = Some (pretty u +:+ " → " +:+ pretty v)).
Proof.
  apply (simulate_routing_transcript line_graph 0 2 (initial_energy 3)
           "TDMA" [0; 1; 2] ["0 → 1"; "1 → 2"]
           {| w_graph := line_graph;
              w_energy := <[0 := 99]> (<[1 := 99]> (<[2 := 100]> ∅)) |}).
  by vm_compute.
Defined.

(** X3: whatever the outcome of [simulate_routing] (a path, the no-path
    answer or an exception), the graph is the one passed in, the energy
    dictionary has the keys it had, and no level is higher than before. *)
Theorem simulate_routing_any_outcome (G : Graph) (source sink : node)
    (energy : gmap node Z) (mac_protocol : string)
    (r : exn + (option (list node) * list string)) (w' : World) :
  simulate_routing G source sink energy mac_protocol = (r, w') →
  w_graph w' = G ∧
  dom (w_energy w') = dom energy ∧
  (∀ n v v', energy !! n = Some v → w_energy w' !! n = Some v' → v' ≤ v).
Proof.
  intros [Hg [on Hd]]%simulate_routing_world.
  split; [done|]. split; [by eapply depletes_dom|].
  intros n v v' Hv Hv'. destruct (Hd n) as (_ & Hle & _).
  destruct (Hle v Hv) as (v'' & Hv'' & ?). congruence.
Qed.

Lemma simulate_routing_any_outcome_witness :
  w_graph {| w_graph := line_graph; w_energy := {[0 := 98]} |}
    = line_graph ∧
  dom (w_energy {| w_graph := line_graph; w_energy := {[0 := 98]} |})
    = dom ({[0 := 100]} : gmap node Z) ∧
  (∀ n v v',
     ({[0 := 100]} : gmap node Z) !! n = Some v →
     w_energy {| w_graph := line_graph; w_energy := {[0 := 98]} |} !! n
       = Some v' →
     v' ≤ v).
Proof.
  apply (simulate_routing_any_outcome line_graph 0 2 {[0 := 100]} "CSMA"
           (inl (KeyError 1))).
  by vm_compute.
Defined.

(** X4: under CSMA or TDMA, when a route exists between two different
    nodes and the source has no entry in the energy dictionary, the call
    ends in KeyError for the source and the dictionary is as it was. *)
Theorem simulate_routing_missing_source (G : Graph) (source sink : node)
    (energy : gmap node Z) (mac_protocol : string) (tx_cost rx_cost : Z)
    (q : list node) :
  wf_graph G → source ∈ nodes G → sink ∈ nodes G →
  is_path G source sink q → source ≠ sink →
  policy_costs mac_protocol tx_cost rx_cost →
  energy !! source = None →
  simulate_routing G source sink energy mac_protocol
    = (inl (KeyError source), {| w_graph := G; w_energy := energy |}).
Proof.
  intros Hwf Hs Ht Hq Hne Hpol Hnone.
  destruct (shortest_path_found G source sink q Hwf Hs Ht Hq)
    as (p & Hsp & (Hh & Hl & _) & _).
  destruct (is_path_two source sink p Hh Hl Hne) as (b & rest & ->).
  eapply simulate_routing_raises; [done| |done].
  rewrite route_hops_cons. unfold bind, charge_hop.
  destruct Hpol as [(-> & _)|(-> & _)]; simpl;
    unfold bind, energy_sub; simpl; by rewrite Hnone.
Qed.

Lemma simulate_routing_missing_source_witness :
  simulate_routing line_graph 0 2 {[1 := 100; 2 := 100]} "TDMA"
    = (inl (KeyError 0),
       {| w_graph := line_graph; w_energy := {[1 := 100; 2 := 100]} |}).
Proof.
  apply (simulate_routing_missing_source line_graph 0 2
           {[1 := 100; 2 := 100]} "TDMA" 1 0 [0; 1; 2]).
  - apply line_graph_wf.
  - apply line_graph_node. lia.
  - apply line_graph_node. lia.
  - apply line_path.
  - lia.
  - right. repeat split; reflexivity.
  - by vm_compute.
Defined.

(** X5: under CSMA or TDMA, when the path found starts with a hop from a
    node that has an energy entry to a node that has none, the call ends
    in KeyError for the receiver after the sender has already paid its
    transmission cost: the dictionary is left changed by that one write. *)
Theorem simulate_routing_missing_receiver (G : Graph) (source sink : node)
    (energy : gmap node Z) (mac_protocol : string) (tx_cost rx_cost : Z)
    (a b : node) (rest : list node) (v : Z) :
  shortest_path G source sink = inr (a :: b :: rest) →
  policy_costs mac_protocol tx_cost rx_cost →
  energy !! a = Some v → energy !! b = None →
  simulate_routing G source sink energy mac_protocol
    = (inl (KeyError b),
       {| w_graph := G; w_energy := <[a := v - tx_cost]> energy |}).
Proof.
  intros Hsp Hpol Ha Hb.
  assert (a ≠ b) as Hab by congruence.
  eapply simulate_routing_raises; [done| |done].
  rewrite route_hops_cons. unfold bind, charge_hop.
  destruct Hpol as [(-> & -> & _)|(-> & -> & _)]; simpl;
    unfold bind, energy_sub; simpl; rewrite Ha; simpl;
    by rewrite lookup_insert_ne, Hb.
Qed.

Lemma simulate_routing_missing_receiver_witness :
  simulate_routing line_graph 0 2 {[0 := 100]} "CSMA"
    = (inl (KeyError 1),
       {| w_graph := line_graph;
          w_energy := <[0 := 100 - 2]> {[0 := 100]} |}).
Proof.
  apply (simulate_routing_missing_receiver line_graph 0 2 {[0 := 100]}
           "CSMA" 2 1 0 1 [2] 100).
  - by vm_compute.
  - left. repeat split; reflexivity.
  - by vm_compute.
  - by vm_compute.
Defined.

(** X6: the session of the script.  With positions and energy from
    [generate_nodes], the graph [connect_nodes] leaves for the positions
    (the finished graph whenever [connect_nodes] returns), and source and
    sink among the identities 0 .. num_nodes-1 (the nodes the selectors
    offer), [simulate_routing] never raises, whatever the protocol value:
    it returns either a path with its transcript or the no-path answer. *)
Theorem session_routing_returns {coord dist range rng : Type}
    `{Numeric coord dist range}
    (uniform : coord → coord → rng → coord * rng) (zero : coord)
    (num_nodes : Z) (area_size : coord) (tx_range : range) (g : rng)
    (source sink : node) (mac_protocol : string) :
  0 ≤ source < num_nodes → 0 ≤ sink < num_nodes →
  ∃ res w',
    simulate_routing
      (build_topology
         (generate_nodes uniform zero num_nodes area_size g).1.1
         tx_range).2
      source sink
      (generate_nodes uniform zero num_nodes area_size g).1.2
      mac_protocol
    = (inr res, w') ∧
    (res = (None, ["No path found!"]) ∨ ∃ p, res = (Some p, transcript p)).
Proof.
  intros Hs Ht.
  pose proof (generate_nodes_same_keys uniform zero num_nodes area_size g)
    as Hkeys.
  apply built_graph_routing_returns.
  - apply set_eq. intros k. destruct (Hkeys k) as [-> ->]. done.
  - rewrite nodes_build_topology. by apply Hkeys.
  - rewrite nodes_build_topology. by apply Hkeys.
Qed.

Lemma session_routing_returns_witness :
  ∃ res w',
    simulate_routing
      (build_topology
         (generate_nodes (λ (_ _ : Z) (g : Z), (g, g + 3)) 0
            3 100 0).1.1 10%float).2
      0 2
      (generate_nodes (λ (_ _ : Z) (g : Z), (g, g + 3)) 0
         3 100 0).1.2
      "CSMA"
    = (inr res, w') ∧
    (res = (None, ["No path found!"]) ∨ ∃ p, res = (Some p, transcript p)).
Proof.
  apply (session_routing_returns (λ (_ _ : Z) (g : Z), (g, g + 3))
           0 3 100 10%float 0 0 2 "CSMA"); lia.
Defined.

End RoutingExtras.

(** ** Shortest paths are simple *)

Section SimplePaths.
Import Nx Search.
Implicit Types (G : Graph) (p q path : list node) (n s t : node).

Lemma hops_of_cons2 (a b : node) (rest : list node) :
  hops_of (a :: b :: rest) = (a, b) :: hops_of (b :: rest).
Proof. reflexivity. Qed.

Lemma Forall_hops_of_suffix (P : node * node → Prop) (l l' : list node) :
  Forall P (hops_of (l ++ l')) → Forall P (hops_of l').
Proof.
  induction l as [|a l IH]; [done|]. intros Hall. apply IH.
  change ((a :: l) ++ l') with (a :: (l ++ l')) in Hall.
  destruct (l ++ l') as [|b r]; [constructor|].
  rewrite hops_of_cons2 in Hall. by apply Forall_cons in Hall as [_ ?].
Qed.

Lemma Forall_hops_of_snoc (P : node * node → Prop) (l : list node) (a : node) :
  Forall P (hops_of l) → (∀ u, last l = Some u → P (u, a)) →
  Forall P (hops_of (l ++ [a])).
Proof.
  induction l as [|b l IH]; intros Hall Hlast; [constructor|].
  destruct l as [|c r].
  - simpl. constructor; [by apply Hlast|constructor].
  - change ((b :: c :: r) ++ [a]) with (b :: c :: (r ++ [a])).
    rewrite hops_of_cons2 in *. apply Forall_cons in Hall as [Hbc Hall].
    constructor; [done|]. apply IH; [done|].
    intros u Hu. apply Hlast. by rewrite last_cons_cons.
Qed.

(** A route that visits a node twice can be cut short. *)
Lemma path_shortcut G p :
  Forall (λ h, has_edge G h.1 h.2) (hops_of p) → ¬ NoDup p →
  ∃ q, head q = head p ∧ last q = last p ∧
       Forall (λ h, has_edge G h.1 h.2) (hops_of q) ∧
       (length q < length p)%nat.
Proof.
  induction p as [|a p IH]; intros He Hnd.
  - destruct Hnd. constructor.
  - destruct (decide (a ∈ p)) as [Hin|Hnin].
    + apply list_elem_of_split in Hin as (l1 & l2 & ->).
      exists (a :: l2). split; [done|]. split; [|split].
      * change (a :: l1 ++ a :: l2) with ((a :: l1) ++ a :: l2).
        by rewrite last_app_cons.
      * by apply (Forall_hops_of_suffix _ (a :: l1)).
      * simpl. rewrite length_app. simpl. lia.
    + assert (¬ NoDup p) as Hnd'.
      { intros Hp. apply Hnd. by constructor. }
      destruct p as [|b r]; [destruct Hnd'; constructor|].
      rewrite hops_of_cons2 in He. apply Forall_cons in He as [Hab He].
      destruct (IH He Hnd') as (q & Hh & Hl & Hq & Hlen).
      simpl in Hh. apply head_Some in Hh as [q' ->].
      exists (a :: b :: q'). split; [done|]. split; [|split].
      * by rewrite !last_cons_cons in *.
      * rewrite hops_of_cons2. by constructor.
      * simpl in *. lia.
Qed.

Lemma minimal_path_NoDup G s t p :
  is_path G s t p →
  (∀ q, is_path G s t q → (hops p ≤ hops q)%nat) → NoDup p.
Proof.
  intros (Hh & Hl & He) Hmin.
  destruct (decide (NoDup p)) as [|Hnd]; [done|exfalso].
  apply edges_hops_of in He.
  destruct (path_shortcut G p He Hnd) as (q & Hqh & Hql & Hq & Hlen).
  assert (is_path G s t q) as Hpath.
  { split; [congruence|]. split; [congruence|]. by apply edges_hops_of. }
  specialize (Hmin q Hpath). unfold hops in Hmin.
  destruct q as [|x q]; [by rewrite Hh in Hqh|]. simpl in *. lia.
Qed.

Lemma is_path_reverse G s t p :
  wf_graph G → is_path G s t p → is_path G t s (reverse p).
Proof.
  intros Hwf (Hh & Hl & He).
  split; [by rewrite head_reverse|]. split; [by rewrite last_reverse|].
  apply edges_hops_of. apply edges_hops_of in He.
  clear Hh Hl. induction p as [|a p IH]; [constructor|].
  rewrite reverse_cons. apply Forall_hops_of_snoc.
  - apply IH. destruct p as [|b r]; [constructor|].
    rewrite hops_of_cons2 in He. by apply Forall_cons in He as [_ ?].
  - intros u Hu. rewrite last_reverse in Hu.
    destruct p as [|b r]; [done|]. injection Hu as ->.
    rewrite hops_of_cons2 in He. apply Forall_cons in He as [Hab _].
    simpl in *. by destruct (Hwf a u Hab).
Qed.

Lemma sends_last p n :
  NoDup p → last p = Some n → sends n (hops_of p) = 0.
Proof.
  induction p as [|a p IH]; [done|]. intros Hnd Hl.
  destruct p as [|b r]; [done|].
  apply NoDup_cons in Hnd as [Ha Hnd].
  rewrite last_cons_cons in Hl.
  rewrite hops_of_cons2, sends_cons, IH by done. simpl.
  rewrite decide_False; [done|]. intros ->.
  apply Ha. by apply last_Some_elem_of.
Qed.

Lemma receives_head p n :
  NoDup p → head p = Some n → receives n (hops_of p) = 0.
Proof.
  destruct p as [|a p]; [done|]. intros [Ha Hnd]%NoDup_cons [= ->].
  destruct p as [|b r]; [done|].
  rewrite hops_of_cons2, receives_cons, receives_not_in by done. simpl.
  rewrite decide_False; [done|]. intros ->. apply Ha. left.
Qed.

Lemma sends_inner p n :
  NoDup p → n ∈ p → last p ≠ Some n → sends n (hops_of p) = 1.
Proof.
  induction p as [|a p IH]; intros Hnd Hn Hl.
  - by apply elem_of_nil in Hn.
  - destruct p as [|b r].
    + apply list_elem_of_singleton in Hn as ->. done.
    + apply NoDup_cons in Hnd as [Ha Hnd].
      rewrite last_cons_cons in Hl. rewrite hops_of_cons2, sends_cons.
      change ((a, b).1) with a. destruct (decide (a = n)) as [->|Hne].
      * by rewrite sends_not_in.
      * rewrite IH; [done|done| |done].
        apply elem_of_cons in Hn as [->|Hn]; done.
Qed.

Lemma receives_inner p n :
  NoDup p → n ∈ p → head p ≠ Some n → receives n (hops_of p) = 1.
Proof.
  induction p as [|a p IH]; intros Hnd Hn Hh.
  - by apply elem_of_nil in Hn.
  - apply NoDup_cons in Hnd as [Ha Hnd].
    apply elem_of_cons in Hn as [->|Hn]; [done|].
    destruct p as [|b r]; [by apply elem_of_nil in Hn|].
    rewrite hops_of_cons2, receives_cons. change ((a, b).2) with b.
    destruct (decide (b = n)) as [->|Hne].
    + rewrite receives_head; done.
    + rewrite IH; [done|done|done|]. simpl. congruence.
Qed.

End SimplePaths.

(** ** [simulate_routing] and the shape of the path *)

Section PathExtras.
Import Nx Search.

Lemma path_edges_hops_of (p : list node) : path_edges p = hops_of p.
Proof.
  unfold path_edges. induction p as [|a p IH]; [done|].
  destruct p as [|b r]; [done|].
  rewrite hops_of_cons2, <- IH. reflexivity.
Qed.

Lemma simulate_routing_inv_none G s t e mac logs w' :
  simulate_routing G s t e mac = (inr (None, logs), w') →
  logs = ["No path found!"].
Proof.
  unfold simulate_routing, except_no_path, bind, nx_shortest_path, ret.
  simpl. destruct (shortest_path G s t) as [[]|p]; try done.
  - by intros [= <- <-].
  - destruct (route_hops mac p [] _) as [[[]|logs'] w1]; try done.
    by intros [= <- <-].
Qed.

(** X7: on a well-formed graph, a path returned by [simulate_routing]
    visits no node twice, stays within the nodes of the graph, and so has
    fewer hops than the graph has nodes. *)
Theorem simulate_routing_simple_path (G : Graph) (source sink : node)
    (energy : gmap node Z) (mac_protocol : string) (path : list node)
    (logs : list string) (w' : World) :
  wf_graph G →
  simulate_routing G source sink energy mac_protocol
    = (inr (Some path, logs), w') →
  NoDup path ∧ (∀ n, n ∈ path → n ∈ nodes G) ∧
  (hops path < size (nodes G))%nat.
Proof.
  intros Hwf [Hsp _]%simulate_routing_inv.
  destruct (shortest_path_inv _ _ _ _ Hsp) as (Hs & Ht & Hp & Hmin).
  pose proof (minimal_path_NoDup G source sink path Hp Hmin) as Hnd.
  assert (∀ n, n ∈ path → n ∈ nodes G) as Hin.
  { intros n. by apply (is_path_nodes G source sink path n). }
  split; [done|]. split; [done|].
  assert (length path ≤ size (nodes G))%nat as Hlen.
  { rewrite <- (size_list_to_set (C := gset node) path Hnd).
    apply subseteq_size. intros n Hn%elem_of_list_to_set. by apply Hin. }
  destruct Hp as (Hh & _ & _). unfold hops.
  destruct path; [done|]. simpl in *. lia.
Qed.

Lemma simulate_routing_simple_path_witness :
  NoDup [0; 1; 2] ∧ (∀ n, n ∈ [0; 1; 2] → n ∈ nodes line_graph) ∧
  (hops [0; 1; 2]%Z < size (nodes line_graph))%nat.
Proof.
  apply (simulate_routing_simple_path line_graph 0 2 (initial_energy 3)
           "ALOHA" [0; 1; 2] ["0 → 1"; "1 → 2"]
           {| w_graph := line_graph; w_energy := initial_energy 3 |}).
  - apply line_graph_wf.
  - by vm_compute.
Defined.

(** X8: under CSMA or TDMA, when a route exists between two different
    nodes, one call takes exactly tx_cost from the source, exactly rx_cost
    from the sink, exactly tx_cost + rx_cost from every other node of the
    returned path, and nothing from any node off the path; a level that is
    too low simply goes below zero. *)
Theorem simulate_routing_exact_charges (G : Graph) (source sink : node)
    (energy : gmap node Z) (mac_protocol : string) (tx_cost rx_cost : Z)
    (q : list node) :
  wf_graph G → source ∈ nodes G → sink ∈ nodes G →
  nodes G ⊆ dom energy →
  is_path G source sink q → source ≠ sink →
  policy_costs mac_protocol tx_cost rx_cost →
  ∃ path logs energy',
    simulate_routing G source sink energy mac_protocol
      = (inr (Some path, logs), {| w_graph := G; w_energy := energy' |}) ∧
    (∀ v, energy !! source = Some v →
          energy' !! source = Some (v - tx_cost)) ∧
    (∀ v, energy !! sink = Some v → energy' !! sink = Some (v - rx_cost)) ∧
    (∀ n v, n ∈ path → n ≠ source → n ≠ sink → energy !! n = Some v →
            energy' !! n = Some (v - tx_cost - rx_cost)) ∧
    (∀ n, n ∉ path → energy' !! n = energy !! n).
Proof.
  intros Hwf Hs Ht Hcov Hq Hne Hpol.
  destruct (shortest_path_found G source sink q Hwf Hs Ht Hq)
    as (p & Hsp & Hp & Hmin).
  pose proof (minimal_path_NoDup G source sink p Hp Hmin) as Hnd.
  assert (∀ n, n ∈ p → n ∈ dom energy) as Hdom.
  { intros n Hn. apply Hcov.
    exact (is_path_nodes G source sink p n Hwf Hs Hp Hn). }
  destruct Hp as (Hh & Hl & _).
  assert (source ∈ p) as Hsp_in by by apply head_Some_elem_of.
  assert (sink ∈ p) as Htp_in by by apply last_Some_elem_of.
  exists p, (transcript p), (charge_hops tx_cost rx_cost (hops_of p) energy).
  split; [|split; [|split; [|split]]].
  - eapply simulate_routing_found; [done|].
    by rewrite (route_hops_costs _ tx_cost rx_cost);
      [|apply policy_costs_mac_costs|].
  - intros v Hv. rewrite lookup_charge_hops, Hv. simpl.
    rewrite sends_inner, receives_head by (try done; congruence).
    f_equal. lia.
  - intros v Hv. rewrite lookup_charge_hops, Hv. simpl.
    rewrite sends_last, receives_inner by (try done; congruence).
    f_equal. lia.
  - intros n v Hn Hns Hnt Hv. rewrite lookup_charge_hops, Hv. simpl.
    rewrite sends_inner, receives_inner by (try done; congruence).
    f_equal. lia.
  - intros n Hn.
    rewrite lookup_charge_hops, sends_not_in, receives_not_in by done.
    destruct (energy !! n); simpl; [f_equal; lia|done].
Qed.

Lemma simulate_routing_exact_charges_witness :
  ∃ path logs energy',
    simulate_routing line_graph 0 2 {[0 := 1; 1 := 2; 2 := 0]} "CSMA"
      = (inr (Some path, logs),
         {| w_graph := line_graph; w_energy := energy' |}) ∧
    (∀ v, ({[0 := 1; 1 := 2; 2 := 0]} : gmap node Z) !! 0 = Some v →
          energy' !! 0 = Some (v - 2)) ∧
    (∀ v, ({[0 := 1; 1 := 2; 2 := 0]} : gmap node Z) !! 2 = Some v →
          energy' !! 2 = Some (v - 1)) ∧
    (∀ n v, n ∈ path → n ≠ 0 → n ≠ 2 →
            ({[0 := 1; 1 := 2; 2 := 0]} : gmap node Z) !! n = Some v →
            energy' !! n = Some (v - 2 - 1)) ∧
    (∀ n, n ∉ path →
          energy' !! n = ({[0 := 1; 1 := 2; 2 := 0]} : gmap node Z) !! n).
Proof.
  apply (simulate_routing_exact_charges line_graph 0 2
           {[0 := 1; 1 := 2; 2 := 0]} "CSMA" 2 1 [0; 1; 2]).
  - apply line_graph_wf.
  - apply line_graph_node. lia.
  - apply line_graph_node. lia.
  - rewrite line_graph_nodes.
    replace (dom ({[0 := 1; 1 := 2; 2 := 0]} : gmap node Z))
      with ({[0; 1; 2]} : gset node) by (by vm_compute).
    done.
  - apply line_path.
  - lia.
  - left. repeat split; reflexivity.
Defined.

(** X9: on a well-formed (undirected) graph the route back has as many
    hops as the route out: when routing source to sink returns a path and
    routing sink to source returns a path, the two have the same number of
    hops and the two transcripts the same number of entries. *)
Theorem simulate_routing_hops_symmetric (G : Graph) (source sink : node)
    (energy energy' : gmap node Z) (mac mac' : string)
    (path path' : list node) (logs logs' : list string) (w w' : World) :
  wf_graph G →
  simulate_routing G source sink energy mac = (inr (Some path, logs), w) →
  simulate_routing G sink source energy' mac'
    = (inr (Some path', logs'), w') →
  hops path' = hops path ∧ length logs' = length logs.
Proof.
  intros Hwf [Hsp Hr]%simulate_routing_inv [Hsp' Hr']%simulate_routing_inv.
  destruct (shortest_path_inv _ _ _ _ Hsp) as (_ & _ & Hp & Hmin).
  destruct (shortest_path_inv _ _ _ _ Hsp') as (_ & _ & Hp' & Hmin').
  pose proof (Hmin _ (is_path_reverse G _ _ _ Hwf Hp')) as H1.
  pose proof (Hmin' _ (is_path_reverse G _ _ _ Hwf Hp)) as H2.
  unfold hops in *. rewrite length_reverse in *.
  apply route_hops_logs in Hr as ->. apply route_hops_logs in Hr' as ->.
  simpl. unfold transcript. rewrite !length_fmap, !length_hops_of.
  unfold hops. lia.
Qed.

Lemma simulate_routing_hops_symmetric_witness :
  hops [2; 1; 0] = hops [0; 1; 2] ∧
  length ["2 → 1"; "1 → 0"] = length ["0 → 1"; "1 → 2"].
Proof.
  apply (simulate_routing_hops_symmetric line_graph 0 2
           (initial_energy 3) (initial_energy 3) "ALOHA" "ALOHA"
           [0; 1; 2] [2; 1; 0] ["0 → 1"; "1 → 2"] ["2 → 1"; "1 → 0"]
           {| w_graph := line_graph; w_energy := initial_energy 3 |}
           {| w_graph := line_graph; w_energy := initial_energy 3 |}).
  - apply line_graph_wf.
  - by vm_compute.
  - by vm_compute.
Defined.

(** X10: what [draw_network] highlights after a call that returned.  For
    the no-path answer nothing is highlighted; for a path, the highlighted
    pairs are edges of the graph, one per transcript entry (none when
    source and sink coincide). *)
Theorem highlighted_edges_of_result (G : Graph) (source sink : node)
    (energy : gmap node Z) (mac_protocol : string)
    (path : option (list node)) (logs : list string) (w' : World) :
  simulate_routing G source sink energy mac_protocol
    = (inr (path, logs), w') →
  match highlighted_edges path with
  | Some es =>
      (∀ u v, (u, v) ∈ es → has_edge G u v) ∧ length es = length logs
  | None => path = None ∧ logs = ["No path found!"]
  end.
Proof.
  destruct path as [p|].
  - intros [Hsp Hr]%simulate_routing_inv.
    destruct (shortest_path_inv _ _ _ _ Hsp) as (_ & _ & Hp & _).
    destruct Hp as (Hh & _ & He). apply edges_hops_of in He.
    destruct p as [|a p]; [done|]. simpl.
    rewrite path_edges_hops_of. split.
    + intros u v Huv. rewrite Forall_forall in He. exact (He (u, v) Huv).
    + apply route_hops_logs in Hr as ->. simpl. unfold transcript.
      by rewrite length_fmap.
  - intros Hnone%simulate_routing_inv_none. by simpl.
Qed.

Lemma highlighted_edges_of_result_witness :
  match highlighted_edges (Some [0; 1; 2]) with
  | Some es =>
      (∀ u v, (u, v) ∈ es → has_edge line_graph u v) ∧
      length es = length ["0 → 1"; "1 → 2"]
  | None => Some [0; 1; 2] = None ∧ ["0 → 1"; "1 → 2"] = ["No path found!"]
  end.
Proof.
  apply (highlighted_edges_of_result line_graph 0 2 (initial_energy 3)
           "CSMA" (Some [0; 1; 2]) ["0 → 1"; "1 → 2"]
           {| w_graph := line_graph;
              w_energy := <[0 := 98]> (<[1 := 97]> (<[2 := 99]> ∅)) |}).
  by vm_compute.
Defined.

End PathExtras.

(** ** [euclidean_distance] in binary64 *)

Section DistanceExtras.

Lemma SFleb_trans (x y z : spec_float) :
  SFleb x y = true → SFleb y z = true → SFleb x z = true.
Proof.
  unfold SFleb.
  destruct x as [[]|[]| |[] m1 e1], y as [[]|[]| |[] m2 e2],
           z as [[]|[]| |[] m3 e3]; simpl; try (intros; congruence);
    rewrite ?Pos.compare_cont_spec; simpl;
    destruct (Z.compare_spec e1 e2), (Z.compare_spec e2 e3),
             (Z.compare_spec e1 e3); try lia; subst; simpl;
    try (intros; congruence);
    destruct (Pos.compare_spec m1 m2), (Pos.compare_spec m2 m3),
             (Pos.compare_spec m1 m3); simpl; try (intros; congruence);
    try lia.
Qed.

Lemma float_leb_trans (x y z : float) :
  PrimFloat.leb x y = true → PrimFloat.leb y z = true →
  PrimFloat.leb x z = true.
Proof. rewrite !FloatAxioms.leb_spec. apply SFleb_trans. Qed.

Lemma is_finite_cases (x : float) :
  is_finite x = true →
  (∃ s, Prim2SF x = S754_zero s) ∨ (∃ s m e, Prim2SF x = S754_finite s m e).
Proof.
  unfold is_finite, is_nan, is_infinity. rewrite !FloatAxioms.eqb_spec, FloatAxioms.abs_spec.
  change (Prim2SF infinity) with (S754_infinity false).
  destruct (Prim2SF x) as [s|s| |s m e]; simpl; eauto.
  - destruct s; discriminate.
  - discriminate.
Qed.

Lemma SFsub_diag (prec emax : Z) (x : spec_float) :
  (∃ s, x = S754_zero s) ∨ (∃ s m e, x = S754_finite s m e) →
  SFsub prec emax x x = S754_zero false.
Proof.
  intros [[s ->]|(s & m & e & ->)]; simpl.
  - by destruct s.
  - by rewrite Z.sub_diag.
Qed.

Lemma float_sub_diag (x : float) :
  is_finite x = true → PrimFloat.sub x x = 0%float.
Proof.
  intros Hx%is_finite_cases. apply Prim2SF_inj.
  rewrite FloatAxioms.sub_spec. unfold SF64sub.
  by rewrite (SFsub_diag _ _ _ Hx).
Qed.


(** X12: in binary64 the distance of a point with finite coordinates to
    itself is computed without an exception and is exactly 0.0, whatever
    the C library's [pow] does. *)
Theorem euclidean_distance_float_self (pow_2 : float → arith_error + float)
    (a : float * float) :
  is_finite a.1 = true → is_finite a.2 = true →
  euclidean_distance (num := float_numeric pow_2) a a = inr 0%float.
Proof.
  intros Hx Hy. unfold euclidean_distance. simpl.
  rewrite (float_sub_diag _ Hx), (float_sub_diag _ Hy). by vm_compute.
Qed.

Lemma euclidean_distance_float_self_witness :
  euclidean_distance (num := float_numeric (λ _, inl OverflowError))
    (1.5%float, (-2)%float) (1.5%float, (-2)%float)
  = inr 0%float.
Proof.
  apply (euclidean_distance_float_self (λ _, inl OverflowError)
           (1.5%float, (-2)%float));
    reflexivity.
Defined.

End DistanceExtras.

(** ** [connect_nodes] on a graph that already has nodes and edges *)

Section TopologyExtras.
Import Nx Search.
Context {coord dist range : Type} `{Numeric coord dist range}.
Implicit Types (positions : gmap node (coord * coord)) (tx_range : range).
Implicit Types (items its : list (node * (coord * coord))).

Lemma graph_eq (G G' : Graph) :
  nodes G = nodes G' → (∀ u v, has_edge G u v ↔ has_edge G' u v) → G = G'.
Proof.
  intros Hn He. apply map_eq. intros u.
  assert (neighbors G u = neighbors G' u) as Hnb.
  { apply set_eq. intros v. apply He. }
  unfold neighbors in Hnb.
  destruct (G !! u) as [s|] eqn:E, (G' !! u) as [s'|] eqn:E';
    simpl in *; [by subst| | |done].
  - assert (u ∈ nodes G') as Hu by (rewrite <- Hn; apply elem_of_dom; eauto).
    unfold nodes in Hu. apply elem_of_dom in Hu as [? ?]. congruence.
  - assert (u ∈ nodes G) as Hu by (rewrite Hn; apply elem_of_dom; eauto).
    unfold nodes in Hu. apply elem_of_dom in Hu as [? ?]. congruence.
Qed.

Lemma in_range_mono tx_range tx_range' i pi j pj :
  (∀ d, nleb d tx_range = true → nleb d tx_range' = true) →
  match in_range tx_range i pi j pj with
  | inl e => in_range tx_range' i pi j pj = inl e
  | inr true => in_range tx_range' i pi j pj = inr true
  | inr false => ∃ b, in_range tx_range' i pi j pj = inr b
  end.
Proof.
  intros Hmono. unfold in_range. case_bool_decide; [|eauto].
  destruct (euclidean_distance pi pj) as [e|d]; simpl; [done|].
  destruct (nleb d tx_range) eqn:E; [|eauto]. by rewrite (Hmono d E).
Qed.

Lemma plan_from_mono tx_range tx_range' it items :
  (∀ d, nleb d tx_range = true → nleb d tx_range' = true) →
  (plan_from tx_range it items).1 = (plan_from tx_range' it items).1 ∧
  ∀ e, e ∈ (plan_from tx_range it items).2 →
       e ∈ (plan_from tx_range' it items).2.
Proof.
  intros Hmono. induction items as [|jt items [IHo IHe]]; simpl; [done|].
  pose proof (in_range_mono tx_range tx_range' it.1 it.2 jt.1 jt.2 Hmono)
    as Hr.
  destruct (in_range tx_range it.1 it.2 jt.1 jt.2) as [err|[|]].
  - by rewrite Hr.
  - rewrite Hr.
    destruct (plan_from tx_range it items) as [o es],
             (plan_from tx_range' it items) as [o' es']. simpl in *.
    split; [done|]. intros e [->|?]%elem_of_cons; [left|right; auto].
  - destruct Hr as [b ->].
    destruct (plan_from tx_range it items) as [o es],
             (plan_from tx_range' it items) as [o' es']. simpl in *.
    split; [done|]. intros e He. destruct b; [right|]; auto.
Qed.

Lemma plan_all_mono tx_range tx_range' items its :
  (∀ d, nleb d tx_range = true → nleb d tx_range' = true) →
  (plan_all tx_range items its).1 = (plan_all tx_range' items its).1 ∧
  ∀ e, e ∈ (plan_all tx_range items its).2 →
       e ∈ (plan_all tx_range' items its).2.
Proof.
  intros Hmono. induction its as [|it its [IHo IHe]]; simpl; [done|].
  destruct (plan_from_mono tx_range tx_range' it items Hmono) as [Ho He].
  destruct (plan_from tx_range it items) as [[err|[]] es],
           (plan_from tx_range' it items) as [[err'|[]] es'];
    simpl in *; try done.
  destruct (plan_all tx_range items its) as [o fs],
           (plan_all tx_range' items its) as [o' fs']. simpl in *.
  split; [done|]. intros e [?|?]%elem_of_app; apply elem_of_app; auto.
Qed.

(** X13: whether [connect_nodes] returns or raises, the graph it leaves
    has every edge the graph had, no self-loop the graph did not have, and
    the invariant of an undirected graph if the graph had it; when the
    keys of the positions are already nodes, the node set is as it was. *)
Theorem connect_nodes_preserves (G : Graph) positions tx_range :
  (∀ u v, has_edge G u v →
          has_edge (connect_nodes G positions tx_range).2 u v) ∧
  (∀ u, has_edge (connect_nodes G positions tx_range).2 u u →
        has_edge G u u) ∧
  (wf_graph G → wf_graph (connect_nodes G positions tx_range).2) ∧
  (dom positions ⊆ nodes G →
   nodes (connect_nodes G positions tx_range).2 = nodes G).
Proof.
  split; [|split; [|split]].
  - intros u v Huv. by apply has_edge_connect_nodes_any.
  - intros u [Hu|[[Hne _]|[Hne _]]]%has_edge_connect_nodes_any; done.
  - apply wf_graph_connect_nodes.
  - apply nodes_connect_nodes.
Qed.

(** X14: [connect_nodes] creates a node only together with an edge: a
    node of the graph it leaves was a node before or has a neighbour in
    range.  Called on a graph without the nodes (without
    [add_nodes_from]), it leaves every isolated node out of the graph. *)
Theorem connect_nodes_new_nodes (G : Graph) positions tx_range (n : node) :
  n ∈ nodes (connect_nodes G positions tx_range).2 ↔
  n ∈ nodes G ∨
  ∃ m, n ≠ m ∧ has_edge (connect_nodes G positions tx_range).2 n m ∧
       (linked positions tx_range n m ∨ linked positions tx_range m n).
Proof.
  split.
  - intros [Hn|([a b] & He & Hn)]%elem_of_nodes_connect_nodes; [by left|].
    right. pose proof (plan_linked _ _ _ _ He) as Hl.
    assert (has_edge (connect_nodes G positions tx_range).2 a b ∧
            has_edge (connect_nodes G positions tx_range).2 b a)
      as [Hab Hba].
    { rewrite connect_nodes_plan. simpl. rewrite !has_edge_add_edges.
      tauto. }
    destruct Hl as [Hne Hl']. simpl in Hn. destruct Hn as [->| ->].
    + exists b. split; [done|]. split; [done|]. by left.
    + exists a. split; [done|]. split; [done|]. by right.
  - intros [Hn|(m & _ & Hnm & _)].
    + apply elem_of_nodes_connect_nodes. by left.
    + by eapply has_edge_node.
Qed.

Lemma add_edges_twice (G : Graph) (es : list (node * node)) :
  add_edges (add_edges G es) es = add_edges G es.
Proof.
  apply graph_eq.
  - apply set_eq. intros n. rewrite !elem_of_nodes_add_edges. tauto.
  - intros u v. rewrite !has_edge_add_edges. tauto.
Qed.

(** X15: [connect_nodes] is idempotent: a second pass over the same
    positions with the same range on the graph the first pass left ends
    as the first did and changes nothing. *)
Theorem connect_nodes_idempotent (G : Graph) positions tx_range :
  connect_nodes (connect_nodes G positions tx_range).2 positions tx_range
  = connect_nodes G positions tx_range.
Proof.
  rewrite !connect_nodes_plan. simpl. by rewrite add_edges_twice.
Qed.

(** X16: a larger range keeps every edge.  When every distance within the
    range r is within the range r', building the graph ends for r as it
    ends for r' (both return, or both raise the same exception), the
    graph for r has the nodes of the graph for r', each of its edges is an
    edge there, and each of its routes is a route there. *)
Theorem build_topology_monotone positions (tx_range tx_range' : range) :
  (∀ d : dist, nleb d tx_range = true → nleb d tx_range' = true) →
  (build_topology positions tx_range).1
    = (build_topology positions tx_range').1 ∧
  nodes (build_topology positions tx_range).2
    = nodes (build_topology positions tx_range').2 ∧
  (∀ u v, has_edge (build_topology positions tx_range).2 u v →
          has_edge (build_topology positions tx_range').2 u v) ∧
  (∀ s t p, is_path (build_topology positions tx_range).2 s t p →
            is_path (build_topology positions tx_range').2 s t p).
Proof.
  intros Hmono.
  destruct (plan_all_mono tx_range tx_range' (map_to_list positions)
              (map_to_list positions) Hmono) as [Ho He].
  assert (∀ u v, has_edge (build_topology positions tx_range).2 u v →
                 has_edge (build_topology positions tx_range').2 u v) as Hedge.
  { intros u v. unfold build_topology. rewrite !connect_nodes_plan. simpl.
    rewrite !has_edge_add_edges. intros [?|[?|?]]; auto. }
  split; [|split; [by rewrite !nodes_build_topology|split; [done|]]].
  - unfold build_topology. by rewrite !connect_nodes_plan.
  - intros s t p (Hh & Hlast & Hp). repeat split; try done.
    intros i u v Hu Hv. apply Hedge. by eapply Hp.
Qed.

End TopologyExtras.

Lemma build_topology_monotone_witness :
  (build_topology line_positions 0%float).1
    = (build_topology line_positions 1.5%float).1 ∧
  Nx.nodes (build_topology line_positions 0%float).2
    = Nx.nodes (build_topology line_positions 1.5%float).2 ∧
  (∀ u v, Nx.has_edge (build_topology line_positions 0%float).2 u v →
          Nx.has_edge (build_topology line_positions 1.5%float).2 u v) ∧
  (∀ s t p,
     Search.is_path (build_topology line_positions 0%float).2 s t p →
     Search.is_path (build_topology line_positions 1.5%float).2 s t p).
Proof.
  apply (build_topology_monotone line_positions 0%float 1.5%float).
  intros d Hd. by apply (float_leb_trans d 0%float 1.5%float).
Defined.

(** ** Direct neighbours, isolated nodes, and the energy table *)

Section MoreExtras.
Import Nx Search.

Lemma is_path_first_hop G s t a b rest :
  is_path G s t (a :: b :: rest) → has_edge G a b.
Proof. intros (_ & _ & He). by apply (He 0%nat). Qed.

(** X17: two different nodes joined by an edge are routed in one hop:
    the path returned is [source, sink] and the transcript is the single
    entry of that hop. *)
Theorem simulate_routing_adjacent (G : Graph) (source sink : node)
    (energy : gmap node Z) (mac_protocol : string) :
  wf_graph G → has_edge G source sink → source ≠ sink →
  nodes G ⊆ dom energy →
  ∃ energy',
    simulate_routing G source sink energy mac_protocol
      = (inr (Some [source; sink], [pretty source +:+ " → " +:+ pretty sink]),
         {| w_graph := G; w_energy := energy' |}).
Proof.
  intros Hwf Hst Hne Hcov.
  assert (source ∈ nodes G) as Hs by by eapply has_edge_node.
  assert (sink ∈ nodes G) as Ht by by destruct (Hwf _ _ Hst).
  assert (is_path G source sink [source; sink]) as Hq.
  { repeat split. intros [|[|i]] u v; simpl; try done.
    by intros [= <-] [= <-]. }
  destruct (shortest_path_found G source sink _ Hwf Hs Ht Hq)
    as (p & Hsp & Hp & Hmin).
  specialize (Hmin _ Hq). destruct Hp as (Hh & Hl & He).
  destruct (is_path_two source sink p Hh Hl Hne) as (b & rest & ->).
  unfold hops in Hmin. simpl in Hmin.
  destruct rest as [|c rest]; [|simpl in Hmin; lia].
  simpl in Hl. injection Hl as ->.
  destruct (mac_costs mac_protocol) as [[tx rx]|] eqn:Hc.
  - eexists. eapply simulate_routing_found; [done|].
    rewrite (route_hops_costs _ tx rx); [done|done|].
    simpl. intros n Hn. apply Hcov. set_solver.
  - eexists. eapply simulate_routing_found; [done|].
    by rewrite route_hops_unknown.
Qed.

Lemma simulate_routing_adjacent_witness :
  ∃ energy',
    simulate_routing line_graph 1 2 (initial_energy 3) "TDMA"
      = (inr (Some [1; 2], [pretty 1 +:+ " → " +:+ pretty 2]),
         {| w_graph := line_graph; w_energy := energy' |}).
Proof.
  apply (simulate_routing_adjacent line_graph 1 2 (initial_energy 3)
           "TDMA").
  - apply line_graph_wf.
  - apply line_graph_edges.
  - lia.
  - apply line_energy_covers.
Defined.

(** X18: on a well-formed graph, routing between two different nodes one
    of which has no neighbour gives the no-path answer and leaves the
    energy dictionary as it was. *)
Theorem simulate_routing_isolated (G : Graph) (source sink : node)
    (energy : gmap node Z) (mac_protocol : string) :
  wf_graph G → source ∈ nodes G → sink ∈ nodes G → source ≠ sink →
  neighbors G source = ∅ ∨ neighbors G sink = ∅ →
  simulate_routing G source sink energy mac_protocol
    = (inr (None, ["No path found!"]),
       {| w_graph := G; w_energy := energy |}).
Proof.
  intros Hwf Hs Ht Hne Hiso.
  apply simulate_routing_catches_no_path, shortest_path_no_path; try done.
  intros q Hq.
  assert (∀ a b p, a ≠ b → neighbors G a = ∅ → ¬ is_path G a b p) as Hno.
  { intros a b p Hab Hnb Hp. pose proof Hp as (Hh & Hl & _).
    destruct (is_path_two a b p Hh Hl Hab) as (c & rest & ->).
    apply is_path_first_hop in Hp. unfold has_edge in Hp.
    rewrite Hnb in Hp. set_solver. }
  destruct Hiso as [Hiso|Hiso].
  - by apply (Hno source sink q).
  - apply (is_path_reverse G _ _ _ Hwf) in Hq.
    by apply (Hno sink source (reverse q)).
Qed.

Lemma simulate_routing_isolated_witness :
  simulate_routing isolated_graph 2 0 (initial_energy 3) "TDMA"
    = (inr (None, ["No path found!"]),
       {| w_graph := isolated_graph; w_energy := initial_energy 3 |}).
Proof.
  apply (simulate_routing_isolated isolated_graph 2 0 (initial_energy 3)
           "TDMA").
  - apply wf_graph_build_topology.
  - rewrite isolated_graph_nodes. set_solver.
  - rewrite isolated_graph_nodes. set_solver.
  - lia.
  - left. apply set_eq. intros v. split; [|set_solver].
    intros Hv. exfalso. by apply (isolated_graph_no_edge 2 v).
Defined.

Lemma display_key_inj : Inj (=) (=) display_key.
Proof.
  intros a b Hab. unfold display_key in Hab. simpl in Hab.
  injection Hab as Hab. by apply (inj pretty).
Qed.

(** X19: the energy table has exactly one entry per node: the entry
    under "Node k" is the formatted level of node k followed by "%", and
    every entry of the table is of that kind; two nodes never share a
    key. *)
Theorem energy_display_lookup (format_1f : Z → string)
    (energy : gmap node Z) :
  (∀ k, energy_display format_1f energy !! display_key k
        = (λ v, format_1f v +:+ "%") <$> energy !! k) ∧
  (∀ s x, energy_display format_1f energy !! s = Some x →
          ∃ k v, s = display_key k ∧ energy !! k = Some v ∧
                 x = format_1f v +:+ "%") ∧
  (∀ k k', display_key k = display_key k' → k = k').
Proof.
  set (entry := λ kv : node * Z,
                  (display_key kv.1, format_1f kv.2 +:+ "%")).
  assert (NoDup (entry <$> map_to_list energy).*1) as Hnd.
  { assert ((entry <$> map_to_list energy).*1
            = display_key <$> (map_to_list energy).*1) as ->.
    { induction (map_to_list energy) as [|kv l IH]; [done|].
      rewrite !fmap_cons, IH. done. }
    apply (NoDup_fmap_2 _), NoDup_fst_map_to_list. }
  split; [|split].
  - intros k. unfold energy_display. fold entry.
    destruct (energy !! k) as [v|] eqn:E; simpl.
    + apply elem_of_list_to_map_1; [done|].
      apply list_elem_of_fmap. exists (k, v). split; [done|].
      by apply elem_of_map_to_list.
    + apply not_elem_of_list_to_map_1.
      intros (kx & Hk & Hin)%list_elem_of_fmap.
      apply list_elem_of_fmap in Hin as ([k' v'] & -> & Hin).
      simpl in Hk. apply display_key_inj in Hk as <-.
      apply elem_of_map_to_list in Hin. congruence.
  - intros s x Hs. unfold energy_display in Hs. fold entry in Hs.
    apply elem_of_list_to_map_2 in Hs.
    apply list_elem_of_fmap in Hs as ([k v] & [= -> ->] & Hin).
    exists k, v. by apply elem_of_map_to_list in Hin.
  - intros k k'. apply display_key_inj.
Qed.

End MoreExtras.

(** ** Exceptions of [connect_nodes], and distances computed *)

Section DistanceOutcomes.
Import Nx Search.

(** X20: [connect_nodes] returns exactly when [euclidean_distance] returns
    for every two distinct keys of the positions, and an exception that
    leaves it is one [euclidean_distance] raised for two such keys.
    Neither the graph nor the range matters for that. *)
Theorem connect_nodes_outcome {coord dist range : Type}
    `{Numeric coord dist range} (G : Graph)
    (positions : gmap node (coord * coord)) (tx_range : range) :
  ((connect_nodes G positions tx_range).1 = inr tt ↔
   ∀ i j pi pj,
     i ≠ j → positions !! i = Some pi → positions !! j = Some pj →
     ∃ d, euclidean_distance pi pj = inr d) ∧
  (∀ err,
     (connect_nodes G positions tx_range).1 = inl err →
     ∃ i j pi pj,
       i ≠ j ∧ positions !! i = Some pi ∧ positions !! j = Some pj ∧
       euclidean_distance pi pj = inl err).
Proof.
  split; [apply connect_nodes_finishes|].
  intros err. apply connect_nodes_raises.
Qed.

(** X21: distances of points with integer coordinates: 5.0 between (0,0)
    and (3,4) in either order and between (1,1) and (4,5), 0.0 from a
    point to itself, the float nearest to the square root of 2 between
    (0,0) and (1,1), and OverflowError for a point 10^200 away. *)
Theorem euclidean_distance_values :
  euclidean_distance (0, 0) (3, 4) = inr 5%float ∧
  euclidean_distance (3, 4) (0, 0) = inr 5%float ∧
  euclidean_distance (1, 1) (4, 5) = inr 5%float ∧
  euclidean_distance (-7, 2) (-7, 2) = inr 0%float ∧
  euclidean_distance (0, 0) (1, 1) = inr 0x1.6a09e667f3bcdp+0%float ∧
  euclidean_distance (0, 0) (10 ^ 200, 0) = inl OverflowError.
Proof. repeat split; by vm_compute. Qed.

End DistanceOutcomes.

(** ** The three-node scenario with float coordinates *)

Section FloatScenario.
Import Nx Search.

Lemma line_build_float (pow_2 : float → arith_error + float) :
  pow_2 2%float = inr 4%float →
  build_topology (num := float_numeric pow_2) line_positions_float 1.5%float
    = build_topology line_positions 1.5%float.
Proof.
  intros H4. unfold build_topology at 1. rewrite connect_nodes_plan.
  replace (map_to_list line_positions_float)
    with [(2, (2, 0)%float); (1, (1, 0)%float); (0, (0, 0)%float)]
    by (by vm_compute).
  assert (plan_all (num := float_numeric pow_2) 1.5%float
            [(2, (2, 0)%float); (1, (1, 0)%float); (0, (0, 0)%float)]
            [(2, (2, 0)%float); (1, (1, 0)%float); (0, (0, 0)%float)]
          = (inr tt, [(2, 1); (1, 2); (1, 0); (0, 1)])) as ->.
  { lazy. rewrite !H4. lazy. reflexivity. }
  by vm_compute.
Qed.

(** X22: with the float coordinates (0.0, 0.0), (1.0, 0.0), (2.0, 0.0) and
    range 1.5, on a platform whose [pow] gives 4.0 for 2.0 squared,
    [connect_nodes] returns and builds the graph it builds for the integer
    coordinates, so routing 0 to 2 under CSMA gives the path [0,1,2], the
    transcript of its two hops and the energies 98, 97, 99. *)
Theorem line_scenario_float (pow_2 : float → arith_error + float) :
  pow_2 2%float = inr 4%float →
  build_topology (num := float_numeric pow_2) line_positions_float 1.5%float
    = build_topology line_positions 1.5%float ∧
  simulate_routing
    (build_topology (num := float_numeric pow_2) line_positions_float
       1.5%float).2
    0 2 (initial_energy 3) "CSMA"
  = (inr (Some [0; 1; 2], ["0 → 1"; "1 → 2"]),
     {| w_graph := line_graph;
        w_energy := <[0 := 98]> (<[1 := 97]> (<[2 := 99]> ∅)) |}).
Proof.
  intros H4. split; [by apply line_build_float|].
  rewrite (line_build_float pow_2 H4). by vm_compute.
Qed.

Lemma line_scenario_float_witness :
  build_topology (num := float_numeric (λ x, inr (x * x)%float))
    line_positions_float 1.5%float
    = build_topology line_positions 1.5%float ∧
  simulate_routing
    (build_topology (num := float_numeric (λ x, inr (x * x)%float))
       line_positions_float 1.5%float).2
    0 2 (initial_energy 3) "CSMA"
  = (inr (Some [0; 1; 2], ["0 → 1"; "1 → 2"]),
     {| w_graph := line_graph;
        w_energy := <[0 := 98]> (<[1 := 97]> (<[2 := 99]> ∅)) |}).
Proof.
  apply (line_scenario_float (λ x, inr (x * x)%float)). reflexivity.
Defined.

End FloatScenario.
